(** * The optimal statistic of [enterprise_extensions]

    A shallow embedding of
    [enterprise_extensions/frequentist/optimal_statistic.py]: the class
    [OptimalStatistic] with [compute_os], the two noise drivers and the
    matrix-product accessors, followed by the properties the specification
    states about them.

    The module talks to three collaborators that are not part of it: the
    [enterprise] noise model ([self.pta]), numpy/scipy, and
    [enterprise.signals.utils].  They are taken as records of operations.
    Scalars of the statistic are IEEE binary64 numbers, as numpy's float64;
    Python code that can raise returns a [result], and the module's effects
    (the warnings it issues, standard output, the random generator, the
    memoization caches) are threaded through an explicit state.  The
    warnings recorded are those of the module's own calls of
    [warnings.warn]; a [RuntimeWarning] that numpy issues by itself inside a
    floating-point operation (division by zero, an invalid value), which
    depends on numpy's error state ([np.seterr]), is not recorded. *)

From Stdlib Require Import PrimFloat ZArith.
From Stdlib Require QArith Qfield.
From stdpp Require Import base option list sorting gmap strings pretty.

Local Open Scope Z_scope.

(** ** Exceptions and results *)

(** The exception classes that matter to the control flow of the module. *)
Inductive exn : Set :=
  | LinAlgError   (* numpy.linalg.LinAlgError, re-exported by scipy.linalg *)
  | IndexError
  | KeyError
  | ValueError
  | TypeError.

Inductive result (T : Type) : Type :=
  | Ok (v : T)
  | Raise (e : exn).
Arguments Ok {T} v.
Arguments Raise {T} e.

(** [except np.linalg.LinAlgError] *)
Definition is_LinAlgError (e : exn) : bool :=
  match e with LinAlgError => true | _ => false end.

(** ** float64 arithmetic on numpy scalars and 1-d arrays *)

Definition fsq (x : float) : float := (x * x)%float.          (* x ** 2 *)
Definition finv_sqrt (x : float) : float := (1 / sqrt x)%float. (* 1 / np.sqrt(x) *)

(** Elementwise operations on arrays of equal length. *)
Definition arr_mul (a b : list float) : list float := zip_with PrimFloat.mul a b.
Definition arr_div (a b : list float) : list float := zip_with PrimFloat.div a b.
Definition arr_sq (a : list float) : list float := fsq <$> a.

(** ** Python containers *)

(** [dict(pairs)] and dict comprehensions: a later pair with the same key
    replaces an earlier one. *)
Definition dict_of_pairs {V} (kvs : list (string * V)) : gmap string V :=
  foldl (λ d kv, <[kv.1 := kv.2]> d) ∅ kvs.

(** [d.update(e)]: the entries of [e] win. *)
Definition dict_update {V} (d e : gmap string V) : gmap string V := e ∪ d.

(** [xs[i]] on a sequence, for a Python integer [i]: negative indices count
    from the end. *)
Definition py_index {T} (xs : list T) (i : Z) : result T :=
  let n := Z.of_nat (length xs) in
  let k := if i <? 0 then i + n else i in
  if (0 <=? k) && (k <? n)
  then match xs !! Z.to_nat k with Some x => Ok x | None => Raise IndexError end
  else Raise IndexError.

(** A two-dimensional numpy array: [shape[1]] columns, and its rows. *)
Record ndarray2 (V : Type) := {
  ncols : nat;
  rows : list (list V) }.
Arguments ncols {V} _.
Arguments rows {V} _.

Definition chain_wf {V} (chain : ndarray2 V) : Prop :=
  Forall (λ r, length r = ncols chain) (rows chain).

Definition shape0 {V} (chain : ndarray2 V) : Z := Z.of_nat (length (rows chain)).
Definition shape1 {V} (chain : ndarray2 V) : Z := Z.of_nat (ncols chain).

(** [row[:-4]] *)
Definition drop_last4 {V} (row : list V) : list V := take (length row - 4)%nat row.

(** [chain[idx, :-4]] *)
Definition chain_row {V} (chain : ndarray2 V) (idx : Z) : result (list V) :=
  match py_index (rows chain) idx with
  | Ok row => Ok (drop_last4 row)
  | Raise e => Raise e
  end.

(** [chain[:, -4]]: fails when there are fewer than four columns. *)
Definition chain_col_m4 {V} (chain : ndarray2 V) : result (list V) :=
  if (ncols chain <? 4)%nat then Raise IndexError
  else Ok (omap (λ row, row !! (length row - 4)%nat) (rows chain)).

Section Collaborators.

(** [V]: parameter values (entries of a chain, values of a parameter
    dictionary); [A]: numpy arrays of the noise model; [Par]: [enterprise]
    parameter objects; [Nd]: the noise-covariance objects returned by
    [get_ndiag]; [G]: the state of the random generator. *)
Context {V A Par Nd G : Type} `{EqDecision V}.

(** *** Collaborators *)

(** Calls into the collaborators, in the order they are made. *)
Inductive call : Type :=
  | Sample (name : string)                 (* par.sample() *)
  | Randint (low high : Z)                 (* np.random.randint(low, high) *)
  | PtaTNr (params : gmap string V)        (* self.pta.get_TNr(params=params) *)
  | PtaTNT (params : gmap string V)        (* self.pta.get_TNT(params=params) *)
  | PtaPhiinv (params : gmap string V)     (* self.pta.get_phiinv(params, logdet=False) *)
  | MapParams (xs : list V)                (* self.pta.map_params(xs) *)
  | GetNdiag (ct : nat) (params : gmap string V)   (* sc.get_ndiag(params=params) *)
  | GetDetres (ct : nat) (params : gmap string V)  (* sc.get_detres(params=params) *)
  | GetBasis (ct : nat) (params : gmap string V)   (* sc.get_basis(params=params) *)
  | NdiagSolve (ct : nat) (right left : A)         (* N.solve(right, left_array=left) *)
  | ChoFactor (Sigma : A)                  (* sl.cho_factor(Sigma) *)
  | ChoSolve (cf : A * bool) (b : A)       (* sl.cho_solve(cf, b) *)
  | LinalgSolve (Sigma b : A).             (* np.linalg.solve(Sigma, b) *)

(** One element of [self.pta._signalcollections]. *)
Record SignalCollection := {
  sc_white_params : list string;
  sc_basis_params : list string;
  sc_delay_params : list string;
  get_ndiag : gmap string V → result Nd;
  get_detres : gmap string V → result A;
  get_basis : gmap string V → result A }.

(** The noise model, [self.pta]. *)
Record PTA := {
  param_names : list string;
  pta_params : list Par;
  _signalcollections : list SignalCollection;
  pta_get_TNr : gmap string V → result (list A);
  pta_get_TNT : gmap string V → result (list A);
  get_phiinv : gmap string V → result (list A);
  map_params : list V → result (gmap string V) }.

(** numpy, scipy.linalg and enterprise.signals.utils. *)
Record NumLib := {
  sample : Par → G → V * G;                (* par.sample() *)
  randint : Z → Z → G → Z * G;             (* a draw from [low, high) *)
  Nd_solve : Nd → A → A → result A;        (* N.solve(right, left_array=left) *)
  ndim : A → nat;
  np_diag : A → result A;
  np_add : A → A → result A;
  np_sub : A → A → result A;
  np_mul : A → A → result A;
  transpose : A → A;                       (* a.T *)
  newaxis_row : A → result A;              (* a[None, :] *)
  np_dot : A → A → result A;               (* np.dot with an array result *)
  np_dot0 : A → A → result float;          (* np.dot of two 1-d arrays *)
  np_trace : A → result float;
  np_sum : list float → float;
  np_arccos : float → float;
  np_argmax : list V → result nat;
  cho_factor : A → result (A * bool);
  cho_solve : A * bool → A → result A;
  linalg_solve : A → A → result A;
  powerlaw : A → option V → result A;      (* utils.powerlaw(f, log10_A=0, gamma=g) *)
  format_1_2 : V → string }.               (* '{0:1.2}'.format(v) *)

(** The attributes of an [OptimalStatistic] instance. *)
Record OptimalStatistic := {
  pta : PTA;
  gamma_common : option V;
  freqs : A;
  Fmats : list A;
  psrlocs : list A;
  orf : A → A → result float }.

(** *** State and the monad of the module *)

(** The memoization store of one decorated method: key and stored value. *)
Definition cache : Type := list (list (option V) * list A).

Record state := {
  warnings : list string;    (* messages the module's code gives to warnings.warn,
                                oldest first; numpy's own RuntimeWarnings are
                                not recorded *)
  stdout : list string;      (* lines printed, oldest first *)
  rng : G;
  calls : list call;         (* collaborator calls, oldest first *)
  FNr_cache : cache;
  FNF_cache : cache;
  FNT_cache : cache }.

Definition M (T : Type) : Type := state → result T * state.

Definition ret {T} (v : T) : M T := λ st, (Ok v, st).
Definition raise {T} (e : exn) : M T := λ st, (Raise e, st).
Definition lift {T} (r : result T) : M T := λ st, (r, st).

Definition bind {T U} (m : M T) (k : T → M U) : M U :=
  λ st, match m st with
        | (Ok v, st') => k v st'
        | (Raise e, st') => (Raise e, st')
        end.

(** [try: body  except <handles>: handler] *)
Definition try_except {T} (body : M T) (handles : exn → bool) (handler : M T) : M T :=
  λ st, match body st with
        | (Ok v, st') => (Ok v, st')
        | (Raise e, st') => if handles e then handler st' else (Raise e, st')
        end.

Fixpoint for_each {T S} (xs : list T) (body : S → T → M S) (acc : S) : M S :=
  match xs with
  | [] => ret acc
  | x :: xs' => bind (body acc x) (for_each xs' body)
  end.

(** [warnings.warn(msg)] *)
Definition warn (msg : string) : M unit :=
  λ st, (Ok tt, {| warnings := warnings st ++ [msg]; stdout := stdout st;
                   rng := rng st; calls := calls st; FNr_cache := FNr_cache st;
                   FNF_cache := FNF_cache st; FNT_cache := FNT_cache st |}).

(** [print(line)] *)
Definition print (line : string) : M unit :=
  λ st, (Ok tt, {| warnings := warnings st; stdout := stdout st ++ [line];
                   rng := rng st; calls := calls st; FNr_cache := FNr_cache st;
                   FNF_cache := FNF_cache st; FNT_cache := FNT_cache st |}).

Definition log_call (c : call) (st : state) : state :=
  {| warnings := warnings st; stdout := stdout st; rng := rng st;
     calls := calls st ++ [c]; FNr_cache := FNr_cache st;
     FNF_cache := FNF_cache st; FNT_cache := FNT_cache st |}.

(** A call into a collaborator that reads no state of the module. *)
Definition ext {T} (c : call) (r : result T) : M T :=
  λ st, (r, log_call c st).

(** A call that advances the random generator. *)
Definition draw {T} (c : call) (f : G → T * G) : M T :=
  λ st, let '(v, g) := f (rng st) in
        (Ok v, {| warnings := warnings st; stdout := stdout st; rng := g;
                  calls := calls st ++ [c]; FNr_cache := FNr_cache st;
                  FNF_cache := FNF_cache st; FNT_cache := FNT_cache st |}).

Definition set_FNr_cache (c : cache) (st : state) : state :=
  {| warnings := warnings st; stdout := stdout st; rng := rng st;
     calls := calls st; FNr_cache := c;
     FNF_cache := FNF_cache st; FNT_cache := FNT_cache st |}.
Definition set_FNF_cache (c : cache) (st : state) : state :=
  {| warnings := warnings st; stdout := stdout st; rng := rng st;
     calls := calls st; FNr_cache := FNr_cache st;
     FNF_cache := c; FNT_cache := FNT_cache st |}.
Definition set_FNT_cache (c : cache) (st : state) : state :=
  {| warnings := warnings st; stdout := stdout st; rng := rng st;
     calls := calls st; FNr_cache := FNr_cache st;
     FNF_cache := FNF_cache st; FNT_cache := c |}.

(** [xs[i]] for a loop index [i] (never negative). *)
Definition index {T} (xs : list T) (i : nat) : M T :=
  match xs !! i with
  | Some x => ret x
  | None => raise IndexError
  end.

End Collaborators.

Arguments call : clear implicits.
Arguments SignalCollection : clear implicits.
Arguments PTA : clear implicits.
Arguments NumLib : clear implicits.
Arguments OptimalStatistic : clear implicits.
Arguments cache : clear implicits.
Arguments state : clear implicits.
Arguments M : clear implicits.

Declare Scope py_scope.
Delimit Scope py_scope with py.
Notation "x <- c ;; k" := (bind c (λ x, k))
  (at level 100, c at next level, right associativity) : py_scope.
Notation "c ;; k" := (bind c (λ _, k))
  (at level 100, right associativity) : py_scope.

(** ** The methods of [OptimalStatistic] *)

Section Methods.

Context {V A Par Nd G : Type} `{EqDecision V}.
Variable L : NumLib V A Par Nd G.
Variable self : OptimalStatistic V A Par Nd.

Local Open Scope py_scope.
Local Abbreviation dict := (gmap string V).
Local Abbreviation Py := (M V A G).

(** [self.white_params], [self.basis_params], [self.delay_params], as
    [_set_cache_parameters] fills them from the signal collections. *)
Definition white_params : list string :=
  concat (sc_white_params <$> _signalcollections (pta self)).
Definition basis_params : list string :=
  concat (sc_basis_params <$> _signalcollections (pta self)).
Definition delay_params : list string :=
  concat (sc_delay_params <$> _signalcollections (pta self)).

(** Modelled from the spec: the decorator [signal_base.cache_call] of
    [enterprise] is not part of the sources.  The key of a call is the tuple
    of the values that the parameter assignment gives to the declared names
    (only those), a stored result is reused on every later call with the same
    key, and nothing is evicted. *)
Definition cache_key (names : list string) (params : dict) : list (option V) :=
  (λ name, params !! name) <$> names.

(** Modelled from the spec: the lookup of a key in the store of a decorated
    method ([signal_base.cache_call] is not part of the sources). *)
Fixpoint cache_get (ky : list (option V)) (c : cache V A) : option (list A) :=
  match c with
  | [] => None
  | (k, v) :: c' => if decide (k = ky) then Some v else cache_get ky c'
  end.

(** Modelled from the spec: a decorated method ([signal_base.cache_call] is
    not part of the sources).  A call whose key is stored returns the stored
    result and does nothing else; any other call runs the method and, when it
    returns, stores the result under the key. *)
Definition cache_call (get : state V A G → cache V A)
    (set : cache V A → state V A G → state V A G)
    (names : list string) (func : dict → Py (list A)) (params : dict) : Py (list A) :=
  λ st, let ky := cache_key names params in
        match cache_get ky (get st) with
        | Some v => (Ok v, st)
        | None =>
            match func params st with
            | (Ok v, st') => (Ok v, set ((ky, v) :: get st') st')
            | (Raise e, st') => (Raise e, st')
            end
        end.

Definition get_TNr (params : dict) : Py (list A) :=
  ext (PtaTNr params) (pta_get_TNr (pta self) params).

Definition get_TNT (params : dict) : Py (list A) :=
  ext (PtaTNT params) (pta_get_TNT (pta self) params).

(** The bodies of the three decorated methods. *)
Definition FNr_body (params : dict) : Py (list A) :=
  for_each (imap (λ ct sc, (ct, sc)) (_signalcollections (pta self)))
    (λ FNrs cs,
       N <- ext (GetNdiag cs.1 params) (get_ndiag cs.2 params) ;;
       F <- index (Fmats self) cs.1 ;;
       res <- ext (GetDetres cs.1 params) (get_detres cs.2 params) ;;
       r <- ext (NdiagSolve cs.1 res F) (Nd_solve L N res F) ;;
       ret (FNrs ++ [r]))
    [].

Definition FNF_body (params : dict) : Py (list A) :=
  for_each (imap (λ ct sc, (ct, sc)) (_signalcollections (pta self)))
    (λ FNFs cs,
       N <- ext (GetNdiag cs.1 params) (get_ndiag cs.2 params) ;;
       F <- index (Fmats self) cs.1 ;;
       r <- ext (NdiagSolve cs.1 F F) (Nd_solve L N F F) ;;
       ret (FNFs ++ [r]))
    [].

Definition FNT_body (params : dict) : Py (list A) :=
  for_each (imap (λ ct sc, (ct, sc)) (_signalcollections (pta self)))
    (λ FNTs cs,
       N <- ext (GetNdiag cs.1 params) (get_ndiag cs.2 params) ;;
       F <- index (Fmats self) cs.1 ;;
       T <- ext (GetBasis cs.1 params) (get_basis cs.2 params) ;;
       r <- ext (NdiagSolve cs.1 T F) (Nd_solve L N T F) ;;
       ret (FNTs ++ [r]))
    [].

(** [@signal_base.cache_call(['white_params', 'delay_params'])] *)
Definition get_FNr : dict → Py (list A) :=
  cache_call FNr_cache set_FNr_cache (white_params ++ delay_params) FNr_body.

(** [@signal_base.cache_call(['white_params'])] *)
Definition get_FNF : dict → Py (list A) :=
  cache_call FNF_cache set_FNF_cache white_params FNF_body.

(** [@signal_base.cache_call(['white_params', 'basis_params'])] *)
Definition get_FNT : dict → Py (list A) :=
  cache_call FNT_cache set_FNT_cache (white_params ++ basis_params) FNT_body.

(** *** [compute_os] *)

Definition missing_msg (p : string) : string :=
  p +:+ " is not included " +:+ "in the parameter dictionary. "
    +:+ "Drawing a random value.".

(** [{name: par.sample() for name, par in zip(param_names, params)}] *)
Definition sample_params : Py dict :=
  for_each (zip (param_names (pta self)) (pta_params (pta self)))
    (λ d np, v <- draw (Sample np.1) (sample L np.2) ;; ret (<[np.1 := v]> d))
    ∅.

(** The check of a supplied dictionary. *)
Definition check_params (params : dict) : Py unit :=
  for_each (param_names (pta self))
    (λ _ p, match params !! p with
            | None => warn (missing_msg p)
            | Some _ => ret tt
            end)
    tt.

(** The Cholesky attempt, the body of the [try]. *)
Definition cholesky_attempt (Sigma TNr FNT : A) : Py (A * A) :=
  cf <- ext (ChoFactor Sigma) (cho_factor L Sigma) ;;
  SigmaTNr <- ext (ChoSolve cf TNr) (cho_solve L cf TNr) ;;
  SigmaTNF <- ext (ChoSolve cf (transpose L FNT)) (cho_solve L cf (transpose L FNT)) ;;
  ret (SigmaTNr, SigmaTNF).

(** The dense solve, the body of the [except]. *)
Definition dense_fallback (Sigma TNr FNT : A) : Py (A * A) :=
  SigmaTNr <- ext (LinalgSolve Sigma TNr) (linalg_solve L Sigma TNr) ;;
  SigmaTNF <- ext (LinalgSolve Sigma (transpose L FNT))
                  (linalg_solve L Sigma (transpose L FNT)) ;;
  ret (SigmaTNr, SigmaTNF).

Definition solve_Sigma (Sigma TNr FNT : A) : Py (A * A) :=
  try_except (cholesky_attempt Sigma TNr FNT) is_LinAlgError
             (dense_fallback Sigma TNr FNT).

(** [TNT + (np.diag(phiinv) if phiinv.ndim == 1 else phiinv)] *)
Definition make_Sigma (TNT phiinv : A) : Py A :=
  D <- (if (ndim L phiinv =? 1)%nat then lift (np_diag L phiinv) else ret phiinv) ;;
  lift (np_add L TNT D).

(** One round of the loop over the pulsars. *)
Definition pulsar_XZ (XZ : list A * list A) (prod : A * A * A * A * A * A)
    : Py (list A * list A) :=
  let '(X, Z) := XZ in
  let '(TNr, TNT, FNr, FNF, FNT, phiinv) := prod in
  Sigma <- make_Sigma TNT phiinv ;;
  s <- solve_Sigma Sigma TNr FNT ;;
  FNTSigmaTNr <- lift (np_dot L FNT s.1) ;;
  x <- lift (np_sub L FNr FNTSigmaTNr) ;;
  d <- lift (np_dot L FNT s.2) ;;
  z <- lift (np_sub L FNF d) ;;
  ret (X ++ [x], Z ++ [z]).

Definition zip6 {T1 T2 T3 T4 T5 T6} (a : list T1) (b : list T2) (c : list T3)
    (d : list T4) (e : list T5) (f : list T6) : list (T1 * T2 * T3 * T4 * T5 * T6) :=
  zip (zip (zip (zip (zip a b) c) d) e) f.

(** The spectral shape of the common process for one pair. *)
Definition get_phiIJ (params : dict) : Py A :=
  match gamma_common self, params !! "gw_gamma" with
  | None, Some g =>
      print (format_1_2 L g) ;;
      lift (powerlaw L (freqs self) (Some g))
  | _, _ => lift (powerlaw L (freqs self) (gamma_common self))
  end.

(** The body of the inner loop, for the pair [(ii, jj)]; the accumulator
    holds the lists [rho], [sig], [ORF] and [xi]. *)
Definition pair_body (params : dict) (X Z : list A) (ii : nat)
    (acc : list float * list float * list float * list float) (jj : nat)
    : Py (list float * list float * list float * list float) :=
  let '(rho, sig, ORF, xi) := acc in
  phiIJ <- get_phiIJ params ;;
  Xi <- index X ii ;;
  Xj <- index X jj ;;
  pXj <- lift (np_mul L phiIJ Xj) ;;
  top <- lift (np_dot0 L Xi pXj) ;;
  Zi <- index Z ii ;;
  ri <- lift (newaxis_row L phiIJ) ;;
  Zpi <- lift (np_mul L Zi ri) ;;
  Zj <- index Z jj ;;
  rj <- lift (newaxis_row L phiIJ) ;;
  Zpj <- lift (np_mul L Zj rj) ;;
  ZZ <- lift (np_dot L Zpi Zpj) ;;
  bot <- lift (np_trace L ZZ) ;;
  pi <- index (psrlocs self) ii ;;
  pj <- index (psrlocs self) jj ;;
  o <- lift (orf self pi pj) ;;
  qi <- index (psrlocs self) ii ;;
  qj <- index (psrlocs self) jj ;;
  c <- lift (np_dot0 L qi qj) ;;
  ret (rho ++ [(top / bot)%float], sig ++ [finv_sqrt bot], ORF ++ [o],
       xi ++ [np_arccos L c]).

(** [for ii in range(npsr): for jj in range(ii+1, npsr): ...] *)
Definition pair_loops (params : dict) (X Z : list A)
    : Py (list float * list float * list float * list float) :=
  let npsr := length (_signalcollections (pta self)) in
  for_each (seq 0 npsr)
    (λ acc ii, for_each (seq (ii + 1) (npsr - (ii + 1))) (pair_body params X Z ii) acc)
    ([], [], [], []).

(** [np.sum(rho*ORF / sig ** 2) / np.sum(ORF ** 2 / sig ** 2)] *)
Definition aggregate_OS (rho sig ORF : list float) : float :=
  (np_sum L (arr_div (arr_mul rho ORF) (arr_sq sig))
   / np_sum L (arr_div (arr_sq ORF) (arr_sq sig)))%float.

(** [1 / np.sqrt(np.sum(ORF ** 2 / sig ** 2))] *)
Definition aggregate_OS_sig (sig ORF : list float) : float :=
  finv_sqrt (np_sum L (arr_div (arr_sq ORF) (arr_sq sig))).

(** Everything after the parameter dictionary is settled. *)
Definition compute_os_with (params : dict)
    : Py (list float * list float * list float * float * float) :=
  TNrs <- get_TNr params ;;
  TNTs <- get_TNT params ;;
  FNrs <- get_FNr params ;;
  FNFs <- get_FNF params ;;
  FNTs <- get_FNT params ;;
  phiinvs <- ext (PtaPhiinv params) (get_phiinv (pta self) params) ;;
  XZ <- for_each (zip6 TNrs TNTs FNrs FNFs FNTs phiinvs) pulsar_XZ ([], []) ;;
  acc <- pair_loops params XZ.1 XZ.2 ;;
  let '(rho, sig, ORF, xi) := acc in
  ret (xi, rho, sig, aggregate_OS rho sig ORF, aggregate_OS_sig sig ORF).

Definition compute_os (params : option dict)
    : Py (list float * list float * list float * float * float) :=
  params <- match params with
            | None => sample_params
            | Some params => check_params params ;; ret params
            end ;;
  compute_os_with params.

(** *** The noise drivers *)

Definition chain_mismatch_msg : string :=
  "MCMC chain does not have the same number of parameters " +:+ "as the model.".

Definition check_chain (chain : ndarray2 V) : Py unit :=
  if bool_decide (shape1 chain - 4 ≠ Z.of_nat (length (param_names (pta self))))
  then warn chain_mismatch_msg
  else ret tt.

(** [np.zeros(N)] *)
Definition np_zeros (N : Z) : Py (list float) :=
  if N <? 0 then raise ValueError else ret (replicate (Z.to_nat N) 0%float).

(** [np.random.randint(low, high)] *)
Definition np_random_randint (low high : Z) : Py Z :=
  if high <=? low then raise ValueError
  else draw (Randint low high) (randint L low high).

(** The parameter dictionary of one chain row in the noise-marginalized
    mode: [setpars.update(self.pta.map_params(row))] without a name list,
    [setpars = dict(zip(param_names, row))] with one. *)
Definition marginalized_params (names : option (list string)) (setpars : dict)
    (row : list V) : Py dict :=
  match names with
  | None =>
      m <- ext (MapParams row) (map_params (pta self) row) ;;
      ret (dict_update setpars m)
  | Some names => ret (dict_of_pairs (zip names row))
  end.

(** One round of the loop of the noise-marginalized mode; the accumulator
    holds [setpars], [opt] and [sig]. *)
Definition marginalized_step (chain : ndarray2 V) (names : option (list string))
    (acc : dict * list float * list float) (ii : nat)
    : Py (dict * list float * list float) :=
  idx <- np_random_randint 0 (shape0 chain) ;;
  row <- lift (chain_row chain idx) ;;
  setpars <- marginalized_params names acc.1.1 row ;;
  r <- compute_os (Some setpars) ;;
  ret (setpars, <[ii := r.1.2]> acc.1.2, <[ii := r.2]> acc.2).

Definition compute_noise_marginalized_os (chain : ndarray2 V)
    (names : option (list string)) (N : Z) : Py (list float * list float) :=
  check_chain chain ;;
  opt <- np_zeros N ;;
  sig <- np_zeros N ;;
  acc <- for_each (seq 0 (Z.to_nat N)) (marginalized_step chain names) (∅, opt, sig) ;;
  ret (acc.1.2, arr_div acc.1.2 acc.2).

(** The parameter dictionary of the selected row in the noise-maximized
    mode: [self.pta.map_params(row)] or [dict(zip(param_names, row))]. *)
Definition maximized_params (names : option (list string)) (row : list V) : Py dict :=
  match names with
  | None => ext (MapParams row) (map_params (pta self) row)
  | Some names => ret (dict_of_pairs (zip names row))
  end.

Definition compute_noise_maximized_os (chain : ndarray2 V)
    (names : option (list string))
    : Py (list float * list float * list float * float * float) :=
  check_chain chain ;;
  col <- lift (chain_col_m4 chain) ;;
  idx <- lift (np_argmax L col) ;;
  row <- lift (chain_row chain (Z.of_nat idx)) ;;
  setpars <- maximized_params names row ;;
  r <- compute_os (Some setpars) ;;
  let '(xi, rho, sig, Opt, Sig) := r in
  ret (xi, rho, sig, Opt, (Opt / Sig)%float).

End Methods.

(** ** Definitions used to state the properties *)

Section Specification.

Context {V A Par Nd G : Type} `{EqDecision V}.
Variable L : NumLib V A Par Nd G.
Variable self : OptimalStatistic V A Par Nd.

Local Open Scope py_scope.
Local Abbreviation dict := (gmap string V).
Local Abbreviation Py := (M V A G).

(** The index pairs [(i, j)] of [P] pulsars: for every [i] in turn, the
    indices [j] above it. *)
Definition pairs (P : nat) : list (nat * nat) :=
  seq 0 P ≫= λ i, (λ j, (i, j)) <$> seq (i + 1) (P - (i + 1)).

(** The lexicographic order on index pairs. *)
Definition lex_lt (p q : nat * nat) : Prop :=
  (p.1 < q.1 ∨ (p.1 = q.1 ∧ p.2 < q.2))%nat.

(** The four values of one pulsar pair: correlation coefficient, its
    uncertainty, overlap reduction function, angular separation. *)
Record pair_result := {
  pr_rho : float;
  pr_sig : float;
  pr_orf : float;
  pr_xi : float }.

Definition pair_stat (params : dict) (X Z : list A) (ii jj : nat) : Py pair_result :=
  phiIJ <- get_phiIJ L self params ;;
  Xi <- index X ii ;;
  Xj <- index X jj ;;
  pXj <- lift (np_mul L phiIJ Xj) ;;
  top <- lift (np_dot0 L Xi pXj) ;;
  Zi <- index Z ii ;;
  ri <- lift (newaxis_row L phiIJ) ;;
  Zpi <- lift (np_mul L Zi ri) ;;
  Zj <- index Z jj ;;
  rj <- lift (newaxis_row L phiIJ) ;;
  Zpj <- lift (np_mul L Zj rj) ;;
  ZZ <- lift (np_dot L Zpi Zpj) ;;
  bot <- lift (np_trace L ZZ) ;;
  pi <- index (psrlocs self) ii ;;
  pj <- index (psrlocs self) jj ;;
  o <- lift (orf self pi pj) ;;
  c <- lift (np_dot0 L pi pj) ;;
  ret {| pr_rho := (top / bot)%float; pr_sig := finv_sqrt bot;
         pr_orf := o; pr_xi := np_arccos L c |}.

(** Runs of a computation over the elements of a list, one after the other,
    each starting in the state the previous one left. *)
Inductive runs {T R} (f : T → Py R) : list T → state V A G → list R → state V A G → Prop :=
  | runs_nil st : runs f [] st [] st
  | runs_cons x xs st v st1 vs st2 :
      f x st = (Ok v, st1) →
      runs f xs st1 vs st2 →
      runs f (x :: xs) st (v :: vs) st2.

(** The inverse-variance-weighted combination, written pair by pair: each
    triple holds [rho], [ORF] and [sigma] of one pair. *)
Definition weighted_rho (t : float * float * float) : float :=
  (t.1.1 * t.1.2 / (t.2 * t.2))%float.
Definition weight (t : float * float * float) : float :=
  (t.1.2 * t.1.2 / (t.2 * t.2))%float.
Definition spec_OS (ts : list (float * float * float)) : float :=
  (np_sum L (weighted_rho <$> ts) / np_sum L (weight <$> ts))%float.
Definition spec_OS_sigma (ts : list (float * float * float)) : float :=
  (1 / sqrt (np_sum L (weight <$> ts)))%float.

(** The names of [self.pta.param_names] that a dictionary lacks. *)
Definition missing_names (params : dict) : list string :=
  filter (λ p, params !! p = None) (param_names (pta self)).


(** The draws of the noise-marginalized mode: each draws a row index,
    forms the dictionary of that row and calls [compute_os] on it. *)
Record draw_result := {
  dr_idx : Z;
  dr_setpars : dict;
  dr_OS : float;
  dr_OS_sig : float }.

Inductive draws (chain : ndarray2 V) (names : option (list string))
    : dict → state V A G → list draw_result → state V A G → Prop :=
  | draws_nil setpars st : draws chain names setpars st [] st
  | draws_cons setpars st idx st1 row setpars' st2 r st3 ds st4 :
      np_random_randint L 0 (shape0 chain) st = (Ok idx, st1) →
      chain_row chain idx = Ok row →
      marginalized_params self names setpars row st1 = (Ok setpars', st2) →
      compute_os L self (Some setpars') st2 = (Ok r, st3) →
      draws chain names setpars' st3 ds st4 →
      draws chain names setpars st
        ({| dr_idx := idx; dr_setpars := setpars'; dr_OS := r.1.2; dr_OS_sig := r.2 |} :: ds)
        st4.

(** A state after further warnings. *)
Definition add_warnings (msgs : list string) (st : state V A G) : state V A G :=
  {| warnings := warnings st ++ msgs; stdout := stdout st; rng := rng st;
     calls := calls st; FNr_cache := FNr_cache st; FNF_cache := FNF_cache st;
     FNT_cache := FNT_cache st |}.

(** A state after further draws: the calls [cs] were logged and the
    generator is left in [g]. *)
Definition drawn (cs : list (call V A)) (g : G) (st : state V A G) : state V A G :=
  {| warnings := warnings st; stdout := stdout st; rng := g;
     calls := calls st ++ cs; FNr_cache := FNr_cache st; FNF_cache := FNF_cache st;
     FNT_cache := FNT_cache st |}.

(** Calls that consume randomness. *)
Definition is_draw (c : call V A) : bool :=
  match c with
  | Sample _ | Randint _ _ => true
  | _ => false
  end.

(** [st'] is reached from [st] without a warning of the module's own and
    without a draw. *)
Definition quiet (st st' : state V A G) : Prop :=
  warnings st' = warnings st ∧ rng st' = rng st ∧
  ∃ cs, calls st' = calls st ++ cs ∧ Forall (λ c, is_draw c = false) cs.

(** [st'] has the memoized [FNF] products of [st]. *)
Definition same_FNF_cache (st st' : state V A G) : Prop :=
  FNF_cache st' = FNF_cache st.

(** Every run of [m] leaves a state related to the one it started in. *)
Definition respects {T} (R : state V A G → state V A G → Prop) (m : Py T) : Prop :=
  ∀ st, R st (m st).2.

(** Two dictionaries give the same value (or both none) to every
    white-noise parameter that a signal collection of the model declares. *)
Definition agree_on_white (p1 p2 : dict) : Prop :=
  ∀ sc name, sc ∈ _signalcollections (pta self) → name ∈ sc_white_params sc →
             p1 !! name = p2 !! name.

(** The calls of [get_FNF] that have returned on an object whose store was
    empty at first, latest first, each with its dictionary and its result.
    Between them [get_FNF] may have raised, and anything may have happened
    that leaves the store of [get_FNF] alone. *)
Inductive FNF_history : list (dict * list A) → state V A G → Prop :=
  | FNF_history_fresh st :
      FNF_cache st = [] → FNF_history [] st
  | FNF_history_returned h st p v st' :
      FNF_history h st → get_FNF L self p st = (Ok v, st') →
      FNF_history ((p, v) :: h) st'
  | FNF_history_raised h st p e st' :
      FNF_history h st → get_FNF L self p st = (Raise e, st') →
      FNF_history h st'
  | FNF_history_other h st st' :
      FNF_history h st → same_FNF_cache st st' →
      FNF_history h st'.

End Specification.

(** ** A concrete model

    Every array of this model has a single entry (one basis function, one
    frequency, sky positions on a line), so an array is represented by its
    entry.  Parameter values are integers, a parameter object is the centre
    of its prior, and the random generator is a counter. *)

Module Example.

(** A reduction over fewer than eight entries: numpy adds them in order,
    starting from the first. *)
Definition toy_sum (xs : list float) : float :=
  match xs with
  | [] => 0%float
  | x :: xs' => foldl PrimFloat.add x xs'
  end.

(** The arc cosine at the two values a dot product of positions on a line
    can take. *)
Definition toy_arccos (c : float) : float :=
  if (c =? 1)%float then 0%float
  else if (c =? -1)%float then 0x1.921fb54442d18p+1%float (* pi *)
  else nan.

Fixpoint argmax_from (best : Z) (besti i : nat) (xs : list Z) : nat :=
  match xs with
  | [] => besti
  | x :: xs' =>
      if best <? x then argmax_from x i (S i) xs'
      else argmax_from best besti (S i) xs'
  end.

Definition toy_argmax (xs : list Z) : result nat :=
  match xs with
  | [] => Raise ValueError
  | x :: xs' => Ok (argmax_from x 0 1 xs')
  end.

Definition toy_lib : NumLib Z float Z float Z := {|
  sample := λ p g, (p + g, g + 1);
  randint := λ low high g, (low + g mod (high - low), g + 1);
  Nd_solve := λ N right left, Ok (left * right / N)%float;
  ndim := λ _, 1%nat;
  np_diag := λ a, Ok a;
  np_add := λ a b, Ok (a + b)%float;
  np_sub := λ a b, Ok (a - b)%float;
  np_mul := λ a b, Ok (a * b)%float;
  transpose := λ a, a;
  newaxis_row := λ a, Ok a;
  np_dot := λ a b, Ok (a * b)%float;
  np_dot0 := λ a b, Ok (a * b)%float;
  np_trace := λ a, Ok a;
  np_sum := toy_sum;
  np_arccos := toy_arccos;
  np_argmax := toy_argmax;
  cho_factor := λ s, if (0 <? s)%float then Ok (sqrt s, false) else Raise LinAlgError;
  cho_solve := λ cf b, Ok (b / cf.1 / cf.1)%float;
  linalg_solve := λ s b, if (s =? 0)%float then Raise LinAlgError else Ok (b / s)%float;
  powerlaw := λ _ gamma, match gamma with Some _ => Ok 1%float | None => Raise TypeError end;
  format_1_2 := λ _, "" |}.

(** The white-noise parameter "efac" sets the noise variance, the
    parameter "delay" scales the residuals. *)
Definition toy_N (params : gmap string Z) : float :=
  match params !! "efac" with
  | Some 2 => 4%float
  | _ => 2%float
  end.

Definition toy_scale (params : gmap string Z) : float :=
  match params !! "delay" with
  | Some 2 => 2%float
  | Some 3 => 4%float
  | _ => 1%float
  end.

(** A pulsar with residual [res] and basis entry 2. *)
Definition toy_sc (res : float) : SignalCollection Z float float := {|
  sc_white_params := ["efac"];
  sc_basis_params := [];
  sc_delay_params := ["delay"];
  get_ndiag := λ params, Ok (toy_N params);
  get_detres := λ params, Ok (res * toy_scale params)%float;
  get_basis := λ _, Ok 2%float |}.

Definition toy_pta (names : list string) (priors : list Z)
    (residuals : list float) (phiinv : float) : PTA Z float Z float := {|
  param_names := names;
  pta_params := priors;
  _signalcollections := toy_sc <$> residuals;
  pta_get_TNr := λ params,
    Ok ((λ res, 2 * (res * toy_scale params) / toy_N params)%float <$> residuals);
  pta_get_TNT := λ params, Ok ((λ _, 2 * 2 / toy_N params)%float <$> residuals);
  get_phiinv := λ _, Ok ((λ _, phiinv) <$> residuals);
  map_params := λ xs, Ok (dict_of_pairs (zip names xs)) |}.

(** The Hellings-Downs function on a line: 1 for equal positions, 1/4 for
    opposite ones. *)
Definition toy_hd_orf (p q : float) : result float :=
  if (p =? q)%float then Ok 1%float else Ok 0.25%float.

Definition toy_os (names : list string) (priors : list Z)
    (residuals : list float) (phiinv : float) (positions : list float)
    : OptimalStatistic Z float Z float := {|
  pta := toy_pta names priors residuals phiinv;
  gamma_common := Some 4;
  freqs := 1%float;
  Fmats := (λ _, 1%float) <$> residuals;
  psrlocs := positions;
  orf := toy_hd_orf |}.

Definition st0 : state Z float Z := {|
  warnings := []; stdout := []; rng := 0; calls := [];
  FNr_cache := []; FNF_cache := []; FNT_cache := [] |}.

(** Two pulsars at opposite positions. *)
Definition two_psrs : OptimalStatistic Z float Z float :=
  toy_os ["efac"; "delay"] [1; 1] [8%float; 4%float] 2%float [1%float; (-1)%float].

(** Three pulsars. *)
Definition three_psrs : OptimalStatistic Z float Z float :=
  toy_os ["efac"; "delay"] [1; 1] [8%float; 4%float; 2%float] 2%float
         [1%float; (-1)%float; 1%float].

(** A chain of three rows with two parameter columns. *)
Definition toy_chain : ndarray2 Z := {|
  ncols := 6;
  rows := [[1; 1; 10; 0; 0; 0]; [1; 3; 30; 0; 0; 0]; [1; 2; 20; 0; 0; 0]] |}.

(** A complete dictionary for the two models above, and one that differs
    from it in the delay parameter only. *)
Definition toy_params : gmap string Z := dict_of_pairs [("efac", 1); ("delay", 1)].
Definition toy_params' : gmap string Z := dict_of_pairs [("efac", 1); ("delay", 3)].

(** The same two pulsars with other prior precisions: [Sigma] is [-4] in
    the first model, which has no Cholesky factor, and [0] in the second,
    which is singular. *)
Definition indefinite_psrs : OptimalStatistic Z float Z float :=
  toy_os ["efac"; "delay"] [1; 1] [8%float; 4%float] (-6)%float [1%float; (-1)%float].
Definition singular_psrs : OptimalStatistic Z float Z float :=
  toy_os ["efac"; "delay"] [1; 1] [8%float; 4%float] (-2)%float [1%float; (-1)%float].

Definition pi_float : float := 0x1.921fb54442d18p+1%float.

(** A dictionary with another white-noise value. *)
Definition toy_params_efac2 : gmap string Z := dict_of_pairs [("efac", 2); ("delay", 1)].


(** The aggregates of the three pulsars, as the model computes them. *)
Definition three_psrs_OS : float :=
  Eval vm_compute in
    match (compute_os toy_lib three_psrs (Some toy_params) st0).1 with
    | Ok r => r.1.2
    | Raise _ => nan
    end.
Definition three_psrs_OS_sig : float :=
  Eval vm_compute in
    match (compute_os toy_lib three_psrs (Some toy_params) st0).1 with
    | Ok r => r.2
    | Raise _ => nan
    end.

End Example.

(** ** Construction of an [OptimalStatistic]

    [__init__] with the two helpers it calls, [_get_freqs] and [get_Fmats].
    They read attributes of the signal collections that the methods above do
    not use: the signals of a collection and the columns of the basis that
    belong to each of them. *)

(** The exceptions of the construction: those above, and the
    [UnboundLocalError] of a [return] of a name that was never bound. *)
Inductive ctor_exn : Set :=
  | Std (e : exn)
  | UnboundLocalError.

Inductive outcome (T : Type) : Type :=
  | Returns (v : T)
  | Fails (e : ctor_exn).
Arguments Returns {T} v.
Arguments Fails {T} e.

(** A [result] as an outcome of the construction. *)
Definition of_result {T} (r : result T) : outcome T :=
  match r with
  | Ok v => Returns v
  | Raise e => Fails (Std e)
  end.

(** [np.concatenate(arrays)] of index arrays: an empty list of arrays is
    refused. *)
Definition np_concatenate (arrays : list (list nat)) : result (list nat) :=
  match arrays with
  | [] => Raise ValueError
  | _ => Ok (concat arrays)
  end.

(** [np.unique(a)]: the sorted distinct elements. *)
Definition np_unique (a : list nat) : list nat :=
  merge_sort (≤)%nat (remove_dups a).

Section Construction.

Context {V A Par Nd : Type}.

(** A signal: its tags and [sig._labels] as [sig._construct_basis()] leaves
    it (or the exception of that call). *)
Record Signal := {
  signal_name : string;
  signal_id : string;
  _construct_basis : result (gmap string A) }.

(** A signal collection with [sc._idx.items()], in the order of iteration,
    and [sc._signals]. *)
Record SignalCollectionView := {
  view_sc : SignalCollection V A Nd;
  _idx : list (Signal * list nat);
  _signals : list Signal }.

(** A noise model with its signal collections seen that way. *)
Record PTAView := {
  view_pta : PTA V A Par Nd;
  collections : list SignalCollectionView }.

(** The views are those of the signal collections of the model. *)
Definition view_consistent (p : PTAView) : Prop :=
  view_sc <$> collections p = _signalcollections (view_pta p).

Record Pulsar := { pos : A }.

(** What the construction uses of [enterprise_extensions.models],
    [enterprise.signals.utils] and numpy. *)
Record CtorLib := {
  model_2a : list Pulsar → string → bool → option V → bool → string →
             option (gmap string V) → result PTAView;
      (* model_2a(psrs, psd=, bayesephem=, gamma_common=, wideband=, select=, noisedict=) *)
  hd_orf : A → A → result float;
  dipole_orf : A → A → result float;
  monopole_orf : A → A → result float;
  take_columns : A → list nat → result A }.    (* basis[:, ix] *)

Variable C : CtorLib.

(** [signal.signal_name == 'red noise' and signal.signal_id in ['gw','gw_crn']] *)
Definition is_gw (sig : Signal) : bool :=
  bool_decide (signal_name sig = "red noise")
  && (bool_decide (signal_id sig = "gw") || bool_decide (signal_id sig = "gw_crn")).

(** The list [ind] that [get_Fmats] collects for one signal collection. *)
Definition gw_index_arrays (sc : SignalCollectionView) : list (list nat) :=
  snd <$> filter (λ si, is_gw si.1 = true) (_idx sc).

(** One round of the loop of [get_Fmats]. *)
Definition Fmat_of (params : gmap string V) (sc : SignalCollectionView) : result A :=
  match np_concatenate (gw_index_arrays sc) with
  | Raise e => Raise e
  | Ok ind =>
      match get_basis (view_sc sc) params with
      | Raise e => Raise e
      | Ok basis => take_columns C basis (np_unique ind)
      end
  end.

Fixpoint get_Fmats_from (params : gmap string V) (scs : list SignalCollectionView)
    (Fmats : list A) : result (list A) :=
  match scs with
  | [] => Ok Fmats
  | sc :: scs' =>
      match Fmat_of params sc with
      | Raise e => Raise e
      | Ok F => get_Fmats_from params scs' (Fmats ++ [F])
      end
  end.

Definition get_Fmats (p : PTAView) (params : gmap string V) : result (list A) :=
  get_Fmats_from params (collections p) [].

(** The loop of [_get_freqs] over the signals of the first collection: it
    stops at the first signal with the tags, and leaves [freqs] unbound when
    there is none. *)
Fixpoint first_gw_labels (sigs : list Signal) : outcome A :=
  match sigs with
  | [] => Fails UnboundLocalError
  | sig :: sigs' =>
      if is_gw sig then
        match _construct_basis sig with
        | Raise e => Fails (Std e)
        | Ok labels =>
            match labels !! "" with
            | Some freqs => Returns freqs
            | None => Fails (Std KeyError)
            end
        end
      else first_gw_labels sigs'
  end.

Definition _get_freqs (p : PTAView) : outcome A :=
  match collections p with
  | [] => Fails (Std IndexError)
  | sc :: _ => first_gw_labels (_signals sc)
  end.

(** The choice of the overlap reduction function at the end of [__init__]. *)
Definition select_orf (orf : string) : result (A → A → result float) :=
  if bool_decide (orf = "hd") then Ok (hd_orf C)
  else if bool_decide (orf = "dipole") then Ok (dipole_orf C)
  else if bool_decide (orf = "monopole") then Ok (monopole_orf C)
  else Raise ValueError.

(** [__init__]: the steps in the order of the source, the first failure
    ending the construction.  The argument [select] is not used by the source
    ([select='backend'] is passed to [model_2a] whatever it is).  The lists
    that [_set_cache_parameters] fills are the functions [white_params],
    [basis_params] and [delay_params] of the model above. *)
Definition __init__ (psrs : list Pulsar) (bayesephem : bool) (gamma_common : option V)
    (orf : string) (wideband : bool) (select : option string)
    (noisedict : option (gmap string V)) (pta : option PTAView)
    : outcome (OptimalStatistic V A Par Nd) :=
  match (match pta with
         | None => model_2a C psrs "powerlaw" bayesephem gamma_common wideband
                     "backend" noisedict
         | Some pta => Ok pta
         end) with
  | Raise e => Fails (Std e)
  | Ok p =>
      match _get_freqs p with
      | Fails e => Fails e
      | Returns freqs =>
          match get_Fmats p ∅ with
          | Raise e => Fails (Std e)
          | Ok Fmats =>
              match select_orf orf with
              | Raise e => Fails (Std e)
              | Ok f =>
                  Returns {| pta := view_pta p; gamma_common := gamma_common;
                             freqs := freqs; Fmats := Fmats;
                             psrlocs := pos <$> psrs; orf := f |}
              end
          end
      end
  end.

End Construction.

Arguments Signal : clear implicits.
Arguments SignalCollectionView : clear implicits.
Arguments PTAView : clear implicits.
Arguments Pulsar : clear implicits.
Arguments CtorLib : clear implicits.

(** ** The format of the warnings *)




(** ** Further definitions used to state properties *)

Section MoreSpecification.

Context {V A Par Nd G : Type} `{EqDecision V}.
Variable L : NumLib V A Par Nd G.
Variable self : OptimalStatistic V A Par Nd.

(** The matrix added to [TNT]: [np.diag(phiinv) if phiinv.ndim == 1 else phiinv]. *)
Definition regularizer (phiinv : A) : result A :=
  if (ndim L phiinv =? 1)%nat then np_diag L phiinv else Ok phiinv.

(** The spectral index handed to [utils.powerlaw]. *)
Definition chosen_gamma (params : gmap string V) : option V :=
  match gamma_common self with
  | Some g => Some g
  | None => params !! "gw_gamma"
  end.

(** [st'] has the printed lines of [st]. *)
Definition same_stdout (st st' : state V A G) : Prop := stdout st' = stdout st.

(** A state after further printed lines. *)
Definition add_stdout (lines : list string) (st : state V A G) : state V A G :=
  {| warnings := warnings st; stdout := stdout st ++ lines; rng := rng st;
     calls := calls st; FNr_cache := FNr_cache st; FNF_cache := FNF_cache st;
     FNT_cache := FNT_cache st |}.

(** What one round of the loop over the pulsars appends to [X] and [Z] for
    the products [prod] of a pulsar:
    [x = FNr − FNT·(Sigma⁻¹ TNr)] and [z = FNF − FNT·(Sigma⁻¹ FNTᵀ)], the two
    solutions coming from one run of the solve of [Sigma]. *)
Definition pulsar_terms (prod : A * A * A * A * A * A) (x z : A) : Prop :=
  let '(TNr, TNT, FNr, FNF, FNT, phiinv) := prod in
  ∃ (D Sigma : A) (s : A * A) (sa sb : state V A G) (d1 d2 : A),
    regularizer phiinv = Ok D ∧ np_add L TNT D = Ok Sigma
    ∧ solve_Sigma L Sigma TNr FNT sa = (Ok s, sb)
    ∧ np_dot L FNT s.1 = Ok d1 ∧ np_sub L FNr d1 = Ok x
    ∧ np_dot L FNT s.2 = Ok d2 ∧ np_sub L FNF d2 = Ok z.

(** The values of the pair [(i, j)], from the per-pulsar terms [X] and [Z]:
    [rho = top / bot] and [sig = 1/sqrt(bot)] with
    [top = X_i · (phi * X_j)] and [bot = trace((Z_i * phi) (Z_j * phi))], and
    [xi = arccos(pos_i · pos_j)]. *)
Definition pair_formula (params : gmap string V) (X Z : list A) (i j : nat)
    (rho sig xi : float) : Prop :=
  ∃ (phi Xi Xj pXj Zi Zj row Zpi Zpj ZZ pi pj : A) (top bot c : float),
    powerlaw L (freqs self) (chosen_gamma params) = Ok phi
    ∧ X !! i = Some Xi ∧ X !! j = Some Xj
    ∧ np_mul L phi Xj = Ok pXj ∧ np_dot0 L Xi pXj = Ok top
    ∧ Z !! i = Some Zi ∧ Z !! j = Some Zj ∧ newaxis_row L phi = Ok row
    ∧ np_mul L Zi row = Ok Zpi ∧ np_mul L Zj row = Ok Zpj
    ∧ np_dot L Zpi Zpj = Ok ZZ ∧ np_trace L ZZ = Ok bot
    ∧ psrlocs self !! i = Some pi ∧ psrlocs self !! j = Some pj
    ∧ np_dot0 L pi pj = Ok c
    ∧ rho = (top / bot)%float ∧ sig = finv_sqrt bot ∧ xi = np_arccos L c.

End MoreSpecification.

(** ** Further concrete models *)

Module MoreExamples.

Import Example.

(** A model of one pulsar. *)
Definition one_psr : OptimalStatistic Z float Z float :=
  toy_os ["efac"; "delay"] [1; 1] [8%float] 2%float [1%float].

(** The library above, printing a spectral index in decimal. *)
Definition toy_lib_fmt : NumLib Z float Z float Z := {|
  sample := sample toy_lib;
  randint := randint toy_lib;
  Nd_solve := Nd_solve toy_lib;
  ndim := ndim toy_lib;
  np_diag := np_diag toy_lib;
  np_add := np_add toy_lib;
  np_sub := np_sub toy_lib;
  np_mul := np_mul toy_lib;
  transpose := transpose toy_lib;
  newaxis_row := newaxis_row toy_lib;
  np_dot := np_dot toy_lib;
  np_dot0 := np_dot0 toy_lib;
  np_trace := np_trace toy_lib;
  np_sum := np_sum toy_lib;
  np_arccos := np_arccos toy_lib;
  np_argmax := np_argmax toy_lib;
  cho_factor := cho_factor toy_lib;
  cho_solve := cho_solve toy_lib;
  linalg_solve := linalg_solve toy_lib;
  powerlaw := powerlaw toy_lib;
  format_1_2 := λ g, pretty g |}.

(** The three pulsars with a spectral index that is not fixed, and a
    dictionary that has a value for it. *)
Definition free_gamma_psrs : OptimalStatistic Z float Z float := {|
  pta := pta three_psrs;
  gamma_common := None;
  freqs := freqs three_psrs;
  Fmats := Fmats three_psrs;
  psrlocs := psrlocs three_psrs;
  orf := orf three_psrs |}.

Definition gamma_params : gmap string Z :=
  dict_of_pairs [("efac", 1); ("delay", 1); ("gw_gamma", 4)].

(** A chain without rows, and one with three columns. *)
Definition empty_chain : ndarray2 Z := {| ncols := 6; rows := [] |}.
Definition narrow_chain : ndarray2 Z := {| ncols := 3; rows := [[1; 2; 3]; [4; 5; 6]] |}.

(** Three signals: white noise, the red noise of the pulsar, and the
    common red process. *)
Definition wn_signal : Signal float := {|
  signal_name := "measurement noise";
  signal_id := "";
  _construct_basis := Ok ∅ |}.
Definition rn_signal : Signal float := {|
  signal_name := "red noise";
  signal_id := "red_noise";
  _construct_basis := Ok {[ "" := 3%float ]} |}.
Definition gw_signal : Signal float := {|
  signal_name := "red noise";
  signal_id := "gw";
  _construct_basis := Ok {[ "" := 1%float ]} |}.

(** A signal collection whose common process has the columns 2, 0 and 1 of
    the basis (two of them shared with the red noise of the pulsar); the same
    with the items in the other order; and one without a common process. *)
Definition toy_view (res : float) : SignalCollectionView Z float float := {|
  view_sc := toy_sc res;
  _idx := [(rn_signal, [0; 1]%nat); (gw_signal, [2; 0; 1; 0]%nat)];
  _signals := [wn_signal; rn_signal; gw_signal] |}.
Definition toy_view_swapped (res : float) : SignalCollectionView Z float float := {|
  view_sc := toy_sc res;
  _idx := [(gw_signal, [2; 0; 1; 0]%nat); (rn_signal, [0; 1]%nat)];
  _signals := [wn_signal; rn_signal; gw_signal] |}.
Definition toy_view_no_gw (res : float) : SignalCollectionView Z float float := {|
  view_sc := toy_sc res;
  _idx := [(rn_signal, [0; 1]%nat)];
  _signals := [wn_signal; rn_signal] |}.

Definition toy_pta_view (views : list (SignalCollectionView Z float float))
    : PTAView Z float Z float := {|
  view_pta := {|
    param_names := ["efac"; "delay"];
    pta_params := [1; 1];
    _signalcollections := view_sc <$> views;
    pta_get_TNr := λ _, Ok ((λ _, 8%float) <$> views);
    pta_get_TNT := λ _, Ok ((λ _, 2%float) <$> views);
    get_phiinv := λ _, Ok ((λ _, 2%float) <$> views);
    map_params := λ xs, Ok (dict_of_pairs (zip ["efac"; "delay"] xs)) |};
  collections := views |}.

(** [basis[:, ix]] of a one-entry basis: the entry once for every column. *)
Definition toy_ctor : CtorLib Z float Z float := {|
  model_2a := λ psrs _ _ _ _ _ _, Ok (toy_pta_view ((λ p, toy_view (pos p)) <$> psrs));
  hd_orf := toy_hd_orf;
  dipole_orf := λ p q, Ok (p * q)%float;
  monopole_orf := λ _ _, Ok 1%float;
  take_columns := λ basis ix, Ok (foldr (λ _ acc, acc + basis)%float 0%float ix) |}.

Definition toy_psrs : list (Pulsar float) := [{| pos := 1%float |}; {| pos := (-1)%float |}].

End MoreExamples.

(** ** Properties *)

Section Properties.

Context {V A Par Nd G : Type} `{EqDecision V}.
Variable L : NumLib V A Par Nd G.
Variable self : OptimalStatistic V A Par Nd.

Local Open Scope py_scope.
Local Abbreviation dict := (gmap string V).
Local Abbreviation Py := (M V A G).
Local Abbreviation St := (state V A G).

(** *** Runs of the monad *)

Lemma bind_ok_inv {T U} (m : Py T) (k : T → Py U) (st st' : St) (v : U) :
  bind m k st = (Ok v, st') →
  ∃ u st1, m st = (Ok u, st1) ∧ k u st1 = (Ok v, st').
Proof.
  unfold bind. destruct (m st) as [[u|e] st1]; [eauto | discriminate].
Qed.

Lemma bind_run {T U} (m : Py T) (k : T → Py U) (st st1 : St) (u : T) :
  m st = (Ok u, st1) → bind m k st = k u st1.
Proof. unfold bind. by intros ->. Qed.

Lemma bind_raise {T U} (m : Py T) (k : T → Py U) (st st1 : St) (e : exn) :
  m st = (Raise e, st1) → bind m k st = (Raise e, st1).
Proof. unfold bind. by intros ->. Qed.

Lemma lift_ok_inv {T} (r : result T) (st st' : St) (v : T) :
  lift r st = (Ok v, st') → r = Ok v ∧ st' = st.
Proof. unfold lift. by intros [= -> ->]. Qed.

Lemma ret_ok_inv {T} (u v : T) (st st' : St) :
  ret u st = (Ok v, st') → u = v ∧ st' = st.
Proof. unfold ret. by intros [= -> ->]. Qed.

Lemma index_ok_inv {T} (xs : list T) (i : nat) (st st' : St) (x : T) :
  index xs i st = (Ok x, st') → xs !! i = Some x ∧ st' = st.
Proof.
  unfold index. destruct (xs !! i); [by intros [= -> ->] | discriminate].
Qed.

Lemma bind_lift_ok {T U} (r : result T) (k : T → Py U) (st : St) (v : T) :
  r = Ok v → bind (lift r) k st = k v st.
Proof. by intros ->. Qed.

Lemma bind_index_ok {T U} (xs : list T) (i : nat) (k : T → Py U) (st : St) (x : T) :
  xs !! i = Some x → bind (index xs i) k st = k x st.
Proof. unfold bind, index. by intros ->. Qed.

Lemma for_each_app {T S} (xs ys : list T) (body : S → T → Py S) (acc : S) (st : St) :
  for_each (xs ++ ys) body acc st
  = bind (for_each xs body acc) (for_each ys body) st.
Proof.
  revert acc st. induction xs as [|x xs IH]; intros acc st; simpl.
  - reflexivity.
  - unfold bind. destruct (body acc x st) as [[acc1|e] st1]; [|done].
    by rewrite IH.
Qed.

Lemma for_each_ext {T S} (xs : list T) (body1 body2 : S → T → Py S) (acc : S) (st : St) :
  (∀ a x s, body1 a x s = body2 a x s) →
  for_each xs body1 acc st = for_each xs body2 acc st.
Proof.
  intros Hb. revert acc st. induction xs as [|x xs IH]; intros acc st; simpl; [done|].
  unfold bind. rewrite Hb. destruct (body2 acc x st) as [[acc1|e] st1]; [apply IH|done].
Qed.

Lemma for_each_fmap {T T' S} (g : T → T') (xs : list T) (body : S → T' → Py S)
    (acc : S) (st : St) :
  for_each (g <$> xs) body acc st = for_each xs (λ a x, body a (g x)) acc st.
Proof.
  revert acc st. induction xs as [|x xs IH]; intros acc st; simpl; [done|].
  unfold bind. destruct (body acc (g x) st) as [[acc1|e] st1]; [apply IH|done].
Qed.

Lemma for_each_bind_list {T T' S} (f : T → list T') (xs : list T)
    (body : S → T' → Py S) (acc : S) (st : St) :
  for_each (xs ≫= f) body acc st
  = for_each xs (λ a x, for_each (f x) body a) acc st.
Proof.
  revert acc st. induction xs as [|x xs IH]; intros acc st; [done|].
  rewrite bind_cons, for_each_app. cbn [for_each]. unfold bind.
  destruct (for_each (f x) body acc st) as [[acc1|e] st1]; [apply IH|done].
Qed.

(** *** Relations between the states of a run *)

Section Respects.

Variable R : St → St → Prop.
Hypothesis R_refl : ∀ st, R st st.
Hypothesis R_trans : ∀ st1 st2 st3, R st1 st2 → R st2 st3 → R st1 st3.

Lemma respects_ret {T} (v : T) : respects R (ret v : Py T).
Proof. intros st. apply R_refl. Qed.

Lemma respects_raise {T} (e : exn) : respects R (raise e : Py T).
Proof. intros st. apply R_refl. Qed.

Lemma respects_lift {T} (r : result T) : respects R (lift r : Py T).
Proof. intros st. apply R_refl. Qed.

Lemma respects_index {T} (xs : list T) (i : nat) : respects R (index xs i : Py T).
Proof. intros st. unfold index. destruct (xs !! i); apply R_refl. Qed.

Lemma respects_bind {T U} (m : Py T) (k : T → Py U) :
  respects R m → (∀ v, respects R (k v)) → respects R (bind m k).
Proof.
  intros Hm Hk st. unfold bind. specialize (Hm st).
  destruct (m st) as [[v|e] st1]; simpl in *; [|done].
  eapply R_trans; [exact Hm | apply Hk].
Qed.

Lemma respects_for_each {T S} (xs : list T) (body : S → T → Py S) (acc : S) :
  (∀ a x, respects R (body a x)) → respects R (for_each xs body acc).
Proof.
  intros Hb. revert acc. induction xs as [|x xs IH]; intros acc; simpl.
  - apply respects_ret.
  - apply respects_bind; [apply Hb | apply IH].
Qed.

Lemma respects_try_except {T} (body handler : Py T) (handles : exn → bool) :
  respects R body → respects R handler →
  respects R (try_except body handles handler).
Proof.
  intros Hb Hh st. unfold try_except. specialize (Hb st).
  destruct (body st) as [[v|e] st1]; simpl in *; [done|].
  destruct (handles e); [|done].
  eapply R_trans; [exact Hb | apply Hh].
Qed.

Lemma respects_cache_call (get : St → cache V A) (set : cache V A → St → St)
    (names : list string) (func : dict → Py (list A)) (params : dict) :
  (∀ c st, R st (set c st)) →
  respects R (func params) →
  respects R (cache_call get set names func params).
Proof.
  intros Hset Hf st. unfold cache_call.
  destruct (cache_get _ _); [apply R_refl|].
  specialize (Hf st). destruct (func params st) as [[v|e] st1]; simpl in *; [|done].
  eapply R_trans; [exact Hf | apply Hset].
Qed.

End Respects.

Lemma quiet_refl (st : St) : quiet st st.
Proof.
  repeat split. exists []. by rewrite app_nil_r.
Qed.

Lemma quiet_trans (st1 st2 st3 : St) : quiet st1 st2 → quiet st2 st3 → quiet st1 st3.
Proof.
  intros (Hw1 & Hr1 & cs1 & Hc1 & Hd1) (Hw2 & Hr2 & cs2 & Hc2 & Hd2).
  repeat split; [congruence | congruence |].
  exists (cs1 ++ cs2). split.
  - by rewrite Hc2, Hc1, app_assoc.
  - by apply Forall_app.
Qed.

Lemma quiet_print (line : string) : respects quiet (print line : Py unit).
Proof. intros st. repeat split. exists []. simpl. by rewrite app_nil_r. Qed.

Lemma quiet_ext {T} (c : call V A) (r : result T) :
  is_draw c = false → respects quiet (ext c r : Py T).
Proof.
  intros Hc st. repeat split. exists [c]. split; [done | by constructor].
Qed.

Lemma quiet_set_cache (c : cache V A) (st : St) :
  quiet st (set_FNr_cache c st) ∧ quiet st (set_FNF_cache c st)
  ∧ quiet st (set_FNT_cache c st).
Proof.
  repeat split; exists []; simpl; by rewrite app_nil_r.
Qed.

Ltac quiet_step :=
  first
    [ apply (respects_ret quiet quiet_refl)
    | apply (respects_raise quiet quiet_refl)
    | apply (respects_lift quiet quiet_refl)
    | apply (respects_index quiet quiet_refl)
    | apply quiet_print
    | apply quiet_ext; reflexivity
    | apply (respects_bind quiet quiet_trans); [|intros ?]
    | apply (respects_for_each quiet quiet_refl quiet_trans); intros ? ?
    | apply (respects_try_except quiet quiet_trans)
    | apply (respects_cache_call quiet quiet_refl quiet_trans);
      [intros ? ?; apply quiet_set_cache|]
    | match goal with
      | |- respects quiet (match ?x with _ => _ end) => destruct x
      end ].

Lemma quiet_solve_Sigma (Sigma TNr FNT : A) :
  respects quiet (solve_Sigma L Sigma TNr FNT).
Proof. unfold solve_Sigma, cholesky_attempt, dense_fallback. repeat quiet_step. Qed.

Lemma quiet_pair_body (params : dict) (X Z : list A) (ii jj : nat)
    (acc : list float * list float * list float * list float) :
  respects quiet (pair_body L self params X Z ii acc jj).
Proof. unfold pair_body, get_phiIJ. repeat quiet_step. Qed.

(** Once the dictionary is settled, the code of [compute_os] makes no call
    of [warnings.warn] and no draw. *)
Lemma quiet_compute_os_with (params : dict) :
  respects quiet (compute_os_with L self params).
Proof.
  unfold compute_os_with, get_TNr, get_TNT, get_FNr, get_FNF, get_FNT,
    FNr_body, FNF_body, FNT_body, pair_loops, pulsar_XZ, make_Sigma.
  repeat first [ apply quiet_solve_Sigma | apply quiet_pair_body | quiet_step ].
Qed.

(** *** The parameter dictionary of [compute_os] *)

Lemma add_warnings_nil (st : St) : add_warnings [] st = st.
Proof. destruct st. unfold add_warnings. simpl. by rewrite app_nil_r. Qed.


Lemma check_params_names (params : dict) (names : list string) (st : St) :
  for_each names
    (λ _ p, match params !! p with
            | None => warn (missing_msg p)
            | Some _ => ret tt
            end) tt st
  = (Ok tt, add_warnings (missing_msg <$> filter (λ p, params !! p = None) names) st).
Proof.
  revert st. induction names as [|p names IH]; intros st.
  - simpl. by rewrite add_warnings_nil.
  - cbn [for_each]. rewrite filter_cons. unfold bind.
    destruct (decide (params !! p = None)) as [Hp|Hp].
    + rewrite Hp. cbn [warn]. rewrite IH. cbn [fmap list_fmap].
      f_equal. unfold add_warnings. simpl. by rewrite <- app_assoc.
    + destruct (params !! p) as [v|]; [|done]. cbn [ret]. apply IH.
Qed.

Lemma check_params_run (params : dict) (st : St) :
  check_params self params st
  = (Ok tt, add_warnings (missing_msg <$> missing_names self params) st).
Proof. apply check_params_names. Qed.






(** C1. When a dictionary is supplied, [compute_os] warns once for every
    name of the model that the dictionary lacks and then computes with the
    dictionary as it was given: no name is added to it, the random generator
    is left as it was and no parameter is sampled.  The substitute that the
    message announces is not drawn. *)
Theorem compute_os_supplied_params_not_completed (params : dict) (st : St) :
  compute_os L self (Some params) st
  = compute_os_with L self params
      (add_warnings (missing_msg <$> missing_names self params) st)
  ∧ rng (compute_os L self (Some params) st).2 = rng st
  ∧ ∃ cs, calls (compute_os L self (Some params) st).2 = calls st ++ cs
          ∧ Forall (λ c, is_draw c = false) cs.
Proof.
  assert (Hrun : compute_os L self (Some params) st
                 = compute_os_with L self params
                     (add_warnings (missing_msg <$> missing_names self params) st)).
  { unfold compute_os. unfold bind at 1 2. by rewrite check_params_run. }
  split; [exact Hrun|]. rewrite Hrun.
  destruct (quiet_compute_os_with params
              (add_warnings (missing_msg <$> missing_names self params) st))
    as (_ & Hr & cs & Hc & Hd).
  split; [exact Hr | by exists cs].
Qed.



(** *** The solve of the regularized normal matrix *)




(** An exception of the solve leaves the loop over the pulsars, and
    [compute_os], uncaught. *)
Lemma pulsar_XZ_raises (XZ : list A * list A) (TNr TNT FNr FNF FNT phiinv Sigma : A)
    (e : exn) (st st1 st2 : St) :
  make_Sigma L TNT phiinv st = (Ok Sigma, st1) →
  solve_Sigma L Sigma TNr FNT st1 = (Raise e, st2) →
  pulsar_XZ L XZ (TNr, TNT, FNr, FNF, FNT, phiinv) st = (Raise e, st2).
Proof.
  intros HS Hsolve. unfold pulsar_XZ. destruct XZ as [X Z].
  rewrite (bind_run _ _ _ _ _ HS). by rewrite (bind_raise _ _ _ _ _ Hsolve).
Qed.

Lemma for_each_raises {T S} (pre post : list T) (x : T) (body : S → T → Py S)
    (acc acc1 : S) (e : exn) (st st1 st2 : St) :
  for_each pre body acc st = (Ok acc1, st1) →
  body acc1 x st1 = (Raise e, st2) →
  for_each (pre ++ x :: post) body acc st = (Raise e, st2).
Proof.
  intros Hpre Hx. rewrite for_each_app, (bind_run _ _ _ _ _ Hpre).
  cbn [for_each]. by rewrite (bind_raise _ _ _ _ _ Hx).
Qed.

Lemma compute_os_with_loop_raises (params : dict) (TNrs TNTs FNrs FNFs FNTs phiinvs : list A)
    (e : exn) (st s1 s2 s3 s4 s5 s6 s7 : St) :
  get_TNr self params st = (Ok TNrs, s1) →
  get_TNT self params s1 = (Ok TNTs, s2) →
  get_FNr L self params s2 = (Ok FNrs, s3) →
  get_FNF L self params s3 = (Ok FNFs, s4) →
  get_FNT L self params s4 = (Ok FNTs, s5) →
  ext (PtaPhiinv params) (get_phiinv (pta self) params) s5 = (Ok phiinvs, s6) →
  for_each (zip6 TNrs TNTs FNrs FNFs FNTs phiinvs) (pulsar_XZ L) ([], []) s6 = (Raise e, s7) →
  compute_os_with L self params st = (Raise e, s7).
Proof.
  intros H1 H2 H3 H4 H5 H6 H7. unfold compute_os_with.
  rewrite (bind_run _ _ _ _ _ H1), (bind_run _ _ _ _ _ H2), (bind_run _ _ _ _ _ H3),
    (bind_run _ _ _ _ _ H4), (bind_run _ _ _ _ _ H5), (bind_run _ _ _ _ _ H6).
  by rewrite (bind_raise _ _ _ _ _ H7).
Qed.

(** *** The memoized products *)

Lemma cache_key_agree (names : list string) (p1 p2 : dict) :
  cache_key names p1 = cache_key names p2 ↔ ∀ k, k ∈ names → p1 !! k = p2 !! k.
Proof.
  unfold cache_key. induction names as [|n names IH]; simpl.
  - split; [intros _ k Hk; by apply elem_of_nil in Hk | done].
  - split.
    + intros [= Hn Hrest] k Hk. apply elem_of_cons in Hk as [->|Hk]; [done|].
      by apply IH.
    + intros Hall. f_equal.
      * apply Hall. by left.
      * apply IH. intros k Hk. apply Hall. by right.
Qed.

Lemma same_FNF_cache_refl (st : St) : same_FNF_cache st st.
Proof. done. Qed.

Lemma same_FNF_cache_trans (st1 st2 st3 : St) :
  same_FNF_cache st1 st2 → same_FNF_cache st2 st3 → same_FNF_cache st1 st3.
Proof. unfold same_FNF_cache. congruence. Qed.

Lemma same_FNF_cache_ext {T} (c : call V A) (r : result T) :
  respects same_FNF_cache (ext c r : Py T).
Proof. by intros st. Qed.

(** The body of [get_FNF] does not touch the store of its results. *)
Lemma FNF_body_same_cache (params : dict) :
  respects same_FNF_cache (FNF_body L self params).
Proof.
  unfold FNF_body.
  apply (respects_for_each _ same_FNF_cache_refl same_FNF_cache_trans). intros FNFs cs.
  repeat first
    [ apply (respects_ret _ same_FNF_cache_refl)
    | apply (respects_index _ same_FNF_cache_refl)
    | apply same_FNF_cache_ext
    | apply (respects_bind _ same_FNF_cache_trans); [|intros ?] ].
Qed.

Lemma get_FNF_hit (params : dict) (v : list A) (st : St) :
  cache_get (cache_key (white_params self) params) (FNF_cache st) = Some v →
  get_FNF L self params st = (Ok v, st).
Proof. unfold get_FNF, cache_call. by intros ->. Qed.

Lemma get_FNF_miss (params : dict) (st : St) :
  cache_get (cache_key (white_params self) params) (FNF_cache st) = None →
  get_FNF L self params st
  = match FNF_body L self params st with
    | (Ok v, st') =>
        (Ok v, set_FNF_cache ((cache_key (white_params self) params, v) :: FNF_cache st') st')
    | (Raise e, st') => (Raise e, st')
    end.
Proof. unfold get_FNF, cache_call. by intros ->. Qed.

Lemma get_FNF_stored (params : dict) (v : list A) (st st1 : St) :
  get_FNF L self params st = (Ok v, st1) →
  cache_get (cache_key (white_params self) params) (FNF_cache st1) = Some v
  ∧ ∀ ky, cache_get ky (FNF_cache st) = None →
          ky ≠ cache_key (white_params self) params →
          cache_get ky (FNF_cache st1) = None.
Proof.
  unfold get_FNF, cache_call.
  destruct (cache_get _ (FNF_cache st)) as [v0|] eqn:Hget.
  - intros [= <- <-]. by split.
  - pose proof (FNF_body_same_cache params st) as Hsame. unfold same_FNF_cache in Hsame.
    destruct (FNF_body L self params st) as [[v1|e] st'] eqn:Hbody; [|discriminate].
    intros [= <- <-]. simpl in *. split.
    + by rewrite decide_True.
    + intros ky Hky Hne. rewrite decide_False by done. by rewrite Hsame.
Qed.

Lemma white_params_elem (name : string) :
  name ∈ white_params self
  ↔ ∃ sc, sc ∈ _signalcollections (pta self) ∧ name ∈ sc_white_params sc.
Proof.
  unfold white_params. induction (_signalcollections (pta self)) as [|sc scs IH]; simpl.
  - split; [by intros ?%elem_of_nil | by intros (sc & ?%elem_of_nil & _)].
  - rewrite elem_of_app, IH. split.
    + intros [Hn | (sc' & Hsc' & Hn)].
      * exists sc. split; [by left | done].
      * exists sc'. split; [by right | done].
    + intros (sc' & Hsc' & Hn). apply elem_of_cons in Hsc' as [-> | Hsc'].
      * by left.
      * right. by exists sc'.
Qed.

(** The key of [get_FNF] tells two dictionaries apart exactly when they
    differ on a white-noise parameter that a signal collection declares. *)
Lemma agree_on_white_key (p1 p2 : dict) :
  agree_on_white self p1 p2
  ↔ cache_key (white_params self) p1 = cache_key (white_params self) p2.
Proof.
  rewrite cache_key_agree. unfold agree_on_white. split.
  - intros Hagree k Hk. apply white_params_elem in Hk as (sc & Hsc & Hk). by eapply Hagree.
  - intros Hagree sc name Hsc Hname. apply Hagree, white_params_elem. by exists sc.
Qed.

(** The store of [get_FNF] holds the results of the calls that returned,
    and nothing else. *)
Lemma FNF_history_store (h : list (dict * list A)) (st : St) :
  FNF_history L self h st →
  (∀ p v, (p, v) ∈ h →
     cache_get (cache_key (white_params self) p) (FNF_cache st) = Some v)
  ∧ (∀ ky v, cache_get ky (FNF_cache st) = Some v →
       ∃ p, (p, v) ∈ h ∧ ky = cache_key (white_params self) p).
Proof.
  induction 1 as [st Hfresh | h st p v st' _ [IHin IHout] Hcall
                  | h st p e st' _ [IHin IHout] Hcall
                  | h st st' _ [IHin IHout] Hsame].
  - rewrite Hfresh. split; [by intros p v ?%elem_of_nil | done].
  - unfold get_FNF, cache_call in Hcall.
    destruct (cache_get _ (FNF_cache st)) as [v0|] eqn:Hget.
    + injection Hcall as <- <-. split.
      * intros p' v' [[= -> ->] | Hin]%elem_of_cons; [done | by apply IHin].
      * intros ky v' Hky. destruct (IHout ky v' Hky) as (p' & Hin & ->).
        exists p'. split; [by right | done].
    + pose proof (FNF_body_same_cache p st) as Hsame. unfold same_FNF_cache in Hsame.
      destruct (FNF_body L self p st) as [[v1|e] st1]; [|discriminate].
      injection Hcall as <- <-. simpl in *. rewrite Hsame. split.
      * intros p' v' [[= -> ->] | Hin]%elem_of_cons; [by rewrite decide_True|].
        destruct (decide (cache_key (white_params self) p
                          = cache_key (white_params self) p')) as [Heq|_];
          [|by apply IHin].
        apply IHin in Hin. rewrite <- Heq in Hin. congruence.
      * intros ky v'.
        destruct (decide (cache_key (white_params self) p = ky)) as [<-|_].
        -- intros [= <-]. exists p. split; [by left | done].
        -- intros Hky. destruct (IHout ky v' Hky) as (p' & Hin & ->).
           exists p'. split; [by right | done].
  - unfold get_FNF, cache_call in Hcall.
    destruct (cache_get _ (FNF_cache st)) as [v0|] eqn:Hget; [discriminate|].
    pose proof (FNF_body_same_cache p st) as Hsame. unfold same_FNF_cache in Hsame.
    destruct (FNF_body L self p st) as [[v1|e1] st1]; [discriminate|].
    injection Hcall as <- <-. simpl in Hsame. rewrite Hsame. by split.
  - unfold same_FNF_cache in Hsame. rewrite Hsame. by split.
Qed.

(** C8 (amended). Two calls of [get_FNF] whose dictionaries agree on every
    white-noise parameter that a signal collection declares: the second
    returns the stored result of the first and changes nothing, whatever the
    other parameters are.  After any number of calls on an object whose
    store was empty at first, a call returns the stored result, without
    computing, when an earlier call that returned had the same white-noise
    values; it runs the body again, and stores the result when the body
    returns, when no earlier call that returned had them.  So a change of a
    white-noise value forces the computation for values not met before, not
    for values met before.  [get_TNr] and [get_TNT] pass every call on to the
    noise model and leave the stores alone. *)
Theorem get_FNF_keyed_on_white_params :
  (∀ (p1 p2 : dict) (v : list A) (st st1 : St),
     agree_on_white self p1 p2 →
     get_FNF L self p1 st = (Ok v, st1) →
     get_FNF L self p2 st1 = (Ok v, st1))
  ∧ (∀ (h : list (dict * list A)) (p : dict) (st : St),
       FNF_history L self h st →
       (∀ p' v, (p', v) ∈ h → agree_on_white self p' p →
                get_FNF L self p st = (Ok v, st))
       ∧ ((∀ p' v, (p', v) ∈ h → ¬ agree_on_white self p' p) →
          get_FNF L self p st
          = match FNF_body L self p st with
            | (Ok v, st') =>
                (Ok v, set_FNF_cache
                         ((cache_key (white_params self) p, v) :: FNF_cache st') st')
            | (Raise e, st') => (Raise e, st')
            end))
  ∧ (∀ (p : dict) (st : St),
       get_TNr self p st = (pta_get_TNr (pta self) p, log_call (PtaTNr p) st)
       ∧ get_TNT self p st = (pta_get_TNT (pta self) p, log_call (PtaTNT p) st)
       ∧ (get_TNr self p (get_TNr self p st).2).2
         = log_call (PtaTNr p) (log_call (PtaTNr p) st)
       ∧ FNF_cache (get_TNr self p st).2 = FNF_cache st
       ∧ FNF_cache (get_TNT self p st).2 = FNF_cache st).
Proof.
  split; [|split].
  - intros p1 p2 v st st1 Hagree Hfirst. apply get_FNF_hit.
    apply agree_on_white_key in Hagree. rewrite <- Hagree.
    by apply get_FNF_stored in Hfirst as [? _].
  - intros h p st Hh. destruct (FNF_history_store h st Hh) as [Hin Hout]. split.
    + intros p' v Hp' Hagree. apply get_FNF_hit.
      apply agree_on_white_key in Hagree. rewrite <- Hagree. by apply Hin.
    + intros Hnone. apply get_FNF_miss.
      destruct (cache_get _ (FNF_cache st)) as [v|] eqn:Hget; [|done].
      destruct (Hout _ v Hget) as (p' & Hp' & Hkey).
      destruct (Hnone p' v Hp'). apply agree_on_white_key. by rewrite Hkey.
  - done.
Qed.

(** *** The enumeration of the pulsar pairs *)

Lemma pairs_from_length (P n : nat) :
  (n ≤ P)%nat →
  (2 * length (seq (P - n) n ≫= λ i, (λ j, (i, j)) <$> seq (i + 1) (P - (i + 1)))
   = n * (n - 1))%nat.
Proof.
  induction n as [|n IH]; intros Hn; [done|].
  replace (P - S n)%nat with (P - n - 1)%nat by lia.
  cbn [seq]. replace (S (P - n - 1)) with (P - n)%nat by lia.
  rewrite bind_cons, length_app, length_fmap, length_seq.
  specialize (IH ltac:(lia)). nia.
Qed.

Lemma pairs_length (P : nat) : length (pairs P) = (P * (P - 1) / 2)%nat.
Proof.
  pose proof (pairs_from_length P P ltac:(lia)) as Hlen.
  rewrite Nat.sub_diag in Hlen. unfold pairs.
  apply Nat.div_unique_exact; lia.
Qed.

Lemma pairs_elem_of (P i j : nat) : (i, j) ∈ pairs P ↔ (i < j < P)%nat.
Proof.
  unfold pairs. rewrite list_elem_of_bind. split.
  - intros (i' & Hin & Hi'). apply list_elem_of_fmap in Hin as (j' & [= -> ->] & Hj').
    apply elem_of_seq in Hi', Hj'. lia.
  - intros Hij. exists i. split.
    + apply list_elem_of_fmap. exists j. split; [done|]. apply elem_of_seq. lia.
    + apply elem_of_seq. lia.
Qed.

Lemma pairs_block_sorted (i a n : nat) :
  StronglySorted lex_lt ((λ j, (i, j)) <$> seq a n).
Proof.
  revert a. induction n as [|n IH]; intros a; cbn [seq fmap list_fmap]; constructor.
  - apply IH.
  - apply Forall_forall. intros p Hp.
    apply list_elem_of_fmap in Hp as (j & -> & Hj). apply elem_of_seq in Hj.
    right. simpl. lia.
Qed.

Lemma pairs_from_sorted (P a n : nat) :
  StronglySorted lex_lt (seq a n ≫= λ i, (λ j, (i, j)) <$> seq (i + 1) (P - (i + 1))).
Proof.
  revert a. induction n as [|n IH]; intros a; [constructor|].
  cbn [seq].
  rewrite bind_cons.
  apply StronglySorted_app_2; [|apply pairs_block_sorted|apply IH].
  intros p q Hp Hq.
  apply list_elem_of_fmap in Hp as (j & -> & Hj).
  apply list_elem_of_bind in Hq as (i' & Hq & Hi').
  apply list_elem_of_fmap in Hq as (j' & -> & Hj').
  apply elem_of_seq in Hi'. left. simpl. lia.
Qed.

Lemma pairs_sorted (P : nat) : StronglySorted lex_lt (pairs P).
Proof. apply pairs_from_sorted. Qed.

(** *** The loop over the pairs *)

Lemma runs_length {T R} (f : T → Py R) (xs : list T) (vs : list R) (st st' : St) :
  runs f xs st vs st' → length vs = length xs.
Proof. induction 1; simpl; congruence. Qed.

Lemma runs_lookup {T R} (f : T → Py R) (xs : list T) (vs : list R) (st st' : St)
    (k : nat) (x : T) :
  runs f xs st vs st' → xs !! k = Some x →
  ∃ v sa sb, f x sa = (Ok v, sb) ∧ vs !! k = Some v.
Proof.
  intros Hruns. revert k. induction Hruns as [st|x0 xs st v st1 vs st2 Hx _ IH]; intros k Hk.
  - by rewrite lookup_nil in Hk.
  - destruct k as [|k]; simpl in Hk.
    + injection Hk as ->. by exists v, st, st1.
    + apply IH in Hk as (v' & sa & sb & Hf & Hv). by exists v', sa, sb.
Qed.

Ltac run_inv H :=
  repeat
    match type of H with
    | bind _ _ _ = (Ok _, _) =>
        let Hstep := fresh "Hstep" in
        apply bind_ok_inv in H as (? & ? & Hstep & H);
        try (apply lift_ok_inv in Hstep as [Hstep ->]);
        try (apply index_ok_inv in Hstep as [Hstep ->])
    end.

Lemma pair_body_stat (params : dict) (X Z : list A) (ii jj : nat)
    (rho sig ORF xi : list float)
    (acc' : list float * list float * list float * list float) (st st' : St) :
  pair_body L self params X Z ii (rho, sig, ORF, xi) jj st = (Ok acc', st') →
  ∃ v, pair_stat L self params X Z ii jj st = (Ok v, st')
       ∧ acc' = (rho ++ [pr_rho v], sig ++ [pr_sig v], ORF ++ [pr_orf v], xi ++ [pr_xi v]).
Proof.
  intros Hrun. unfold pair_body in Hrun. run_inv Hrun.
  apply ret_ok_inv in Hrun as [<- ->]. simplify_eq.
  repeat match goal with
         | H1 : ?r = Ok ?a, H2 : ?r = Ok ?b |- _ => rewrite H1 in H2; injection H2 as <-
         end.
  eexists. split.
  - unfold pair_stat.
    repeat first [ erewrite bind_lift_ok by eassumption
                 | erewrite bind_index_ok by eassumption
                 | erewrite bind_run by eassumption ].
    reflexivity.
  - reflexivity.
Qed.

Lemma pair_stat_orf (params : dict) (X Z : list A) (ii jj : nat) (v : pair_result)
    (st st' : St) :
  pair_stat L self params X Z ii jj st = (Ok v, st') →
  ∃ pi pj c, psrlocs self !! ii = Some pi ∧ psrlocs self !! jj = Some pj
             ∧ orf self pi pj = Ok (pr_orf v)
             ∧ np_dot0 L pi pj = Ok c ∧ pr_xi v = np_arccos L c.
Proof.
  intros Hrun. unfold pair_stat in Hrun. run_inv Hrun.
  apply ret_ok_inv in Hrun as [<- ->]. simpl. eauto 10.
Qed.

Lemma pair_list_runs (params : dict) (X Z : list A) (ps : list (nat * nat))
    (rho sig ORF xi : list float)
    (acc' : list float * list float * list float * list float) (st st' : St) :
  for_each ps (λ a p, pair_body L self params X Z p.1 a p.2) (rho, sig, ORF, xi) st
  = (Ok acc', st') →
  ∃ vs, runs (λ p, pair_stat L self params X Z p.1 p.2) ps st vs st'
        ∧ acc' = (rho ++ (pr_rho <$> vs), sig ++ (pr_sig <$> vs),
                  ORF ++ (pr_orf <$> vs), xi ++ (pr_xi <$> vs)).
Proof.
  revert rho sig ORF xi st.
  induction ps as [|p ps IH]; intros rho sig ORF xi st Hrun.
  - apply ret_ok_inv in Hrun as [<- ->]. exists []. split; [constructor|].
    simpl. by rewrite !app_nil_r.
  - cbn [for_each] in Hrun. apply bind_ok_inv in Hrun as (acc1 & st1 & Hp & Hrun).
    apply pair_body_stat in Hp as (v & Hv & ->).
    apply IH in Hrun as (vs & Hruns & ->).
    exists (v :: vs). split; [by econstructor|].
    simpl. by rewrite <- !app_assoc.
Qed.

Lemma pair_loops_pairs (params : dict) (X Z : list A) (st : St) :
  pair_loops L self params X Z st
  = for_each (pairs (length (_signalcollections (pta self))))
      (λ a p, pair_body L self params X Z p.1 a p.2) ([], [], [], []) st.
Proof.
  unfold pair_loops, pairs. rewrite for_each_bind_list.
  apply for_each_ext. intros a ii s. by rewrite for_each_fmap.
Qed.

(** What a successful call of [compute_os] returns: the values of the pairs,
    in the order of the enumeration, and the two aggregates of them. *)
Lemma compute_os_ok_inv (params : option dict) (st st' : St)
    (xi rho sig : list float) (OS OS_sig : float) :
  compute_os L self params st = (Ok (xi, rho, sig, OS, OS_sig), st') →
  ∃ (d : dict) (X Z : list A) (st1 : St) (vs : list pair_result),
    (∀ d0, params = Some d0 → d = d0)
    ∧ runs (λ p, pair_stat L self d X Z p.1 p.2)
        (pairs (length (_signalcollections (pta self)))) st1 vs st'
    ∧ xi = pr_xi <$> vs ∧ rho = pr_rho <$> vs ∧ sig = pr_sig <$> vs
    ∧ OS = aggregate_OS L rho sig (pr_orf <$> vs)
    ∧ OS_sig = aggregate_OS_sig L sig (pr_orf <$> vs).
Proof.
  intros Hrun. unfold compute_os in Hrun.
  apply bind_ok_inv in Hrun as (d & s0 & Hd & Hrun).
  unfold compute_os_with in Hrun. run_inv Hrun.
  match goal with
  | Hl : pair_loops _ _ _ _ _ _ = _ |- _ =>
      rewrite pair_loops_pairs in Hl; apply pair_list_runs in Hl as (vs & Hruns & ->)
  end.
  simpl in Hrun. apply ret_ok_inv in Hrun as [[= <- <- <- <- <-] ->].
  eexists d, _, _, _, vs. split; [|split; [exact Hruns|done]].
  intros d0 ->. apply bind_ok_inv in Hd as (? & ? & _ & Hd).
  by apply ret_ok_inv in Hd as [-> _].
Qed.

(** *** The aggregate statistic *)

Lemma pair_triples_zip (vs : list pair_result) :
  zip (zip (pr_rho <$> vs) (pr_orf <$> vs)) (pr_sig <$> vs)
  = (λ v, (pr_rho v, pr_orf v, pr_sig v)) <$> vs.
Proof. induction vs as [|v vs IH]; simpl; [done | f_equal; exact IH]. Qed.

Lemma aggregate_weights (vs : list pair_result) :
  arr_div (arr_mul (pr_rho <$> vs) (pr_orf <$> vs)) (arr_sq (pr_sig <$> vs))
  = weighted_rho <$> ((λ v, (pr_rho v, pr_orf v, pr_sig v)) <$> vs)
  ∧ arr_div (arr_sq (pr_orf <$> vs)) (arr_sq (pr_sig <$> vs))
    = weight <$> ((λ v, (pr_rho v, pr_orf v, pr_sig v)) <$> vs).
Proof.
  induction vs as [|v vs [IH1 IH2]]; [done|].
  split; cbn; f_equal; assumption.
Qed.

Lemma aggregate_OS_spec (vs : list pair_result) :
  aggregate_OS L (pr_rho <$> vs) (pr_sig <$> vs) (pr_orf <$> vs)
  = spec_OS L (zip (zip (pr_rho <$> vs) (pr_orf <$> vs)) (pr_sig <$> vs))
  ∧ aggregate_OS_sig L (pr_sig <$> vs) (pr_orf <$> vs)
    = spec_OS_sigma L (zip (zip (pr_rho <$> vs) (pr_orf <$> vs)) (pr_sig <$> vs)).
Proof.
  rewrite pair_triples_zip. unfold aggregate_OS, aggregate_OS_sig, spec_OS, spec_OS_sigma.
  destruct (aggregate_weights vs) as [-> ->]. by split.
Qed.

(** C5. The aggregate statistic of a successful call is the
    inverse-variance-weighted combination of the returned pair values:
    with [ORF] the overlap reduction function of each pair,
    [OS = Σ(rho·ORF/sig²) / Σ(ORF²/sig²)] and [OS_sig = 1/sqrt(Σ(ORF²/sig²))],
    the sums ([np.sum]) ranging over all returned pairs. *)
Theorem compute_os_aggregate_is_weighted_combination (params : option dict) (st st' : St)
    (xi rho sig : list float) (OS OS_sig : float) :
  compute_os L self params st = (Ok (xi, rho, sig, OS, OS_sig), st') →
  ∃ ORF : list float,
    length rho = length (pairs (length (_signalcollections (pta self))))
    ∧ length sig = length rho ∧ length ORF = length rho
    ∧ (∀ k ii jj,
         pairs (length (_signalcollections (pta self))) !! k = Some (ii, jj) →
         ∃ pi pj o, psrlocs self !! ii = Some pi ∧ psrlocs self !! jj = Some pj
                    ∧ orf self pi pj = Ok o ∧ ORF !! k = Some o)
    ∧ OS = spec_OS L (zip (zip rho ORF) sig)
    ∧ OS_sig = spec_OS_sigma L (zip (zip rho ORF) sig).
Proof.
  intros Hrun.
  apply compute_os_ok_inv in Hrun as (d & X & Z & st1 & vs & _ & Hruns & -> & -> & -> & -> & ->).
  exists (pr_orf <$> vs). pose proof (runs_length _ _ _ _ _ Hruns) as Hlen.
  rewrite !length_fmap. repeat split; try done.
  - intros k ii jj Hk.
    destruct (runs_lookup _ _ _ _ _ _ _ Hruns Hk) as (v & sa & sb & Hv & Hvk).
    apply pair_stat_orf in Hv as (pi & pj & c & Hpi & Hpj & Ho & _).
    exists pi, pj, (pr_orf v). rewrite list_lookup_fmap, Hvk. by repeat split.
  - apply aggregate_OS_spec.
  - apply aggregate_OS_spec.
Qed.

(** C6. A successful call on a model of [P] pulsars returns arrays of
    [P(P−1)/2] entries; the entry at position [k] belongs to the [k]-th pair
    of the enumeration, which lists every pair [i < j < P] once, in
    lexicographic order. *)
Theorem compute_os_one_entry_per_pair (params : option dict) (st st' : St)
    (xi rho sig : list float) (OS OS_sig : float) :
  compute_os L self params st = (Ok (xi, rho, sig, OS, OS_sig), st') →
  let P := length (_signalcollections (pta self)) in
  length xi = (P * (P - 1) / 2)%nat
  ∧ length rho = (P * (P - 1) / 2)%nat
  ∧ length sig = (P * (P - 1) / 2)%nat
  ∧ StronglySorted lex_lt (pairs P)
  ∧ (∀ i j, (i, j) ∈ pairs P ↔ (i < j < P)%nat)
  ∧ ∃ (d : dict) (X Z : list A),
      (∀ d0, params = Some d0 → d = d0)
      ∧ ∀ k i j, pairs P !! k = Some (i, j) →
          ∃ v sa sb, pair_stat L self d X Z i j sa = (Ok v, sb)
                     ∧ xi !! k = Some (pr_xi v)
                     ∧ rho !! k = Some (pr_rho v)
                     ∧ sig !! k = Some (pr_sig v).
Proof.
  intros Hrun P.
  apply compute_os_ok_inv in Hrun as (d & X & Z & st1 & vs & Hd & Hruns & -> & -> & -> & _).
  pose proof (runs_length _ _ _ _ _ Hruns) as Hlen. fold P in Hlen, Hruns.
  rewrite !length_fmap, Hlen, pairs_length.
  do 3 (split; [done|]).
  split; [apply pairs_sorted|]. split; [apply pairs_elem_of|].
  exists d, X, Z. split; [done|]. intros k i j Hk.
  destruct (runs_lookup _ _ _ _ _ _ _ Hruns Hk) as (v & sa & sb & Hv & Hvk).
  exists v, sa, sb. rewrite !list_lookup_fmap, Hvk. by repeat split.
Qed.

Lemma pairs_two : pairs 2 = [(0, 1)]%nat.
Proof. reflexivity. Qed.

(** C2 (amended). With two pulsars there is one pair, and the aggregate is
    formed from its values alone:
    [OS = np.sum([rho·ORF/sig²]) / np.sum([ORF²/sig²])], where [ORF] is the
    overlap reduction function of the two positions. *)
Theorem compute_os_single_pair_aggregate (params : option dict) (st st' : St)
    (xi rho sig : list float) (OS OS_sig : float) :
  length (_signalcollections (pta self)) = 2%nat →
  compute_os L self params st = (Ok (xi, rho, sig, OS, OS_sig), st') →
  ∃ r s o pi pj,
    rho = [r] ∧ sig = [s]
    ∧ psrlocs self !! 0%nat = Some pi ∧ psrlocs self !! 1%nat = Some pj
    ∧ orf self pi pj = Ok o
    ∧ OS = (np_sum L [r * o / (s * s)] / np_sum L [o * o / (s * s)])%float.
Proof.
  intros HP Hrun.
  apply compute_os_ok_inv in Hrun as (d & X & Z & st1 & vs & _ & Hruns & -> & -> & -> & -> & _).
  rewrite HP, pairs_two in Hruns.
  inversion Hruns as [|p ps s0 v s1 vs' s2 Hv Hrest]; subst.
  inversion Hrest; subst.
  apply pair_stat_orf in Hv as (pi & pj & c & Hpi & Hpj & Ho & _).
  exists (pr_rho v), (pr_sig v), (pr_orf v), pi, pj. by repeat split.
Qed.

(** *** The noise drivers *)

Lemma check_chain_run (chain : ndarray2 V) (st : St) :
  check_chain self chain st
  = (Ok tt,
     if bool_decide (shape1 chain - 4 ≠ Z.of_nat (length (param_names (pta self))))
     then add_warnings [chain_mismatch_msg] st else st).
Proof. unfold check_chain. by destruct (bool_decide _). Qed.

Lemma take_S_insert {T} (l : list T) (a : nat) (x : T) :
  (a < length l)%nat → take (S a) (<[a := x]> l) = take a l ++ [x].
Proof.
  intros Ha. rewrite (take_S_r _ _ x) by (by apply list_lookup_insert_eq).
  by rewrite take_insert_ge.
Qed.

Lemma arr_div_draws (ds : list (draw_result (V := V))) :
  arr_div (dr_OS <$> ds) (dr_OS_sig <$> ds)
  = (λ d, (dr_OS d / dr_OS_sig d)%float) <$> ds.
Proof. induction ds as [|d ds IH]; simpl; [done | f_equal; exact IH]. Qed.

Lemma marginalized_step_inv (chain : ndarray2 V) (names : option (list string))
    (sp sp' : dict) (opt sig opt' sig' : list float) (ii : nat) (st st' : St) :
  marginalized_step L self chain names (sp, opt, sig) ii st = (Ok (sp', opt', sig'), st') →
  ∃ idx st1 row st2 r,
    np_random_randint L 0 (shape0 chain) st = (Ok idx, st1)
    ∧ chain_row chain idx = Ok row
    ∧ marginalized_params self names sp row st1 = (Ok sp', st2)
    ∧ compute_os L self (Some sp') st2 = (Ok r, st')
    ∧ opt' = <[ii := r.1.2]> opt ∧ sig' = <[ii := r.2]> sig.
Proof.
  intros Hrun. unfold marginalized_step in Hrun.
  apply bind_ok_inv in Hrun as (idx & st1 & Hidx & Hrun).
  apply bind_ok_inv in Hrun as (row & s1 & Hrow & Hrun).
  apply lift_ok_inv in Hrow as [Hrow ->].
  apply bind_ok_inv in Hrun as (sp1 & st2 & Hsp & Hrun).
  apply bind_ok_inv in Hrun as (r & st3 & Hr & Hrun).
  apply ret_ok_inv in Hrun as [[= <- <- <-] ->].
  by exists idx, st1, row, st2, r.
Qed.

Lemma marginalized_loop_draws (chain : ndarray2 V) (names : option (list string))
    (n a : nat) (sp sp' : dict) (opt sig opt' sig' : list float) (st st' : St) :
  (a + n ≤ length opt)%nat → (a + n ≤ length sig)%nat →
  for_each (seq a n) (marginalized_step L self chain names) (sp, opt, sig) st
  = (Ok (sp', opt', sig'), st') →
  ∃ ds, draws L self chain names sp st ds st' ∧ length ds = n
        ∧ opt' = take a opt ++ (dr_OS <$> ds) ++ drop (a + n) opt
        ∧ sig' = take a sig ++ (dr_OS_sig <$> ds) ++ drop (a + n) sig.
Proof.
  revert a sp opt sig st. induction n as [|n IH]; intros a sp opt sig st Hopt Hsig Hrun.
  - apply ret_ok_inv in Hrun as [[= <- <- <-] ->]. exists []. split; [constructor|].
    rewrite Nat.add_0_r. simpl. by rewrite !take_drop.
  - cbn [seq for_each] in Hrun.
    apply bind_ok_inv in Hrun as ([[sp1 opt1] sig1] & st1 & Hstep & Hrun).
    apply marginalized_step_inv in Hstep
      as (idx & s1 & row & s2 & r & Hidx & Hrow & Hsp & Hr & -> & ->).
    apply IH in Hrun as (ds & Hds & Hlen & -> & ->); [|rewrite length_insert; lia..].
    eexists (_ :: ds). split; [by econstructor|]. split; [simpl; lia|].
    rewrite !take_S_insert, !drop_insert_lt by lia.
    replace (S a + n)%nat with (a + S n)%nat by lia.
    simpl. by rewrite <- !app_assoc.
Qed.

Lemma draws_lookup (chain : ndarray2 V) (names : option (list string))
    (sp : dict) (st st' : St) (ds : list draw_result) (k : nat) (d : draw_result) :
  draws L self chain names sp st ds st' → ds !! k = Some d →
  ∃ sa sb sc sd row r,
    np_random_randint L 0 (shape0 chain) sa = (Ok (dr_idx d), sb)
    ∧ chain_row chain (dr_idx d) = Ok row
    ∧ compute_os L self (Some (dr_setpars d)) sc = (Ok r, sd)
    ∧ dr_OS d = r.1.2 ∧ dr_OS_sig d = r.2
    ∧ ∀ pn, names = Some pn → dr_setpars d = dict_of_pairs (zip pn row) ∧ sc = sb.
Proof.
  intros Hds. revert k.
  induction Hds as [|sp st idx st1 row sp' st2 r st3 ds st4 Hidx Hrow Hsp Hr _ IH];
    intros k Hk.
  - by rewrite lookup_nil in Hk.
  - destruct k as [|k]; simpl in Hk; [|by apply IH in Hk].
    injection Hk as <-. exists st, st1, st2, st3, row, r. simpl.
    do 5 (split; [done|]). intros pn ->. simpl in Hsp.
    by apply ret_ok_inv in Hsp as [<- ->].
Qed.

Lemma marginalized_ok_inv (chain : ndarray2 V) (names : option (list string)) (N : Z)
    (opt snr : list float) (st st' : St) :
  compute_noise_marginalized_os L self chain names N st = (Ok (opt, snr), st') →
  0 ≤ N ∧
  ∃ ds, draws L self chain names ∅ (check_chain self chain st).2 ds st'
        ∧ length ds = Z.to_nat N
        ∧ opt = dr_OS <$> ds
        ∧ snr = (λ d, (dr_OS d / dr_OS_sig d)%float) <$> ds.
Proof.
  intros Hrun. unfold compute_noise_marginalized_os in Hrun.
  apply bind_ok_inv in Hrun as ([] & s0 & Hchk & Hrun).
  assert (s0 = (check_chain self chain st).2) as -> by (by rewrite Hchk).
  unfold np_zeros in Hrun. destruct (N <? 0) eqn:HN; [discriminate|].
  apply Z.ltb_ge in HN. split; [done|].
  apply bind_ok_inv in Hrun as (opt0 & s1 & Hz1 & Hrun).
  apply ret_ok_inv in Hz1 as [<- ->].
  apply bind_ok_inv in Hrun as (sig0 & s1 & Hz2 & Hrun).
  apply ret_ok_inv in Hz2 as [<- ->].
  apply bind_ok_inv in Hrun as ([[sp' opt'] sig'] & s1 & Hloop & Hrun).
  apply ret_ok_inv in Hrun as [[= <- <-] ->].
  apply marginalized_loop_draws in Hloop as (ds & Hds & Hlen & -> & ->);
    [|rewrite length_replicate; lia..].
  exists ds. rewrite !drop_ge by (rewrite length_replicate; lia).
  simpl. rewrite !app_nil_r. by rewrite arr_div_draws.
Qed.

Lemma maximized_ok_inv (chain : ndarray2 V) (names : option (list string))
    (xi rho sig : list float) (Opt snr : float) (st st' : St) :
  compute_noise_maximized_os L self chain names st = (Ok (xi, rho, sig, Opt, snr), st') →
  ∃ col idx row setpars st1 Sig,
    chain_col_m4 chain = Ok col ∧ np_argmax L col = Ok idx
    ∧ chain_row chain (Z.of_nat idx) = Ok row
    ∧ maximized_params self names row (check_chain self chain st).2 = (Ok setpars, st1)
    ∧ compute_os L self (Some setpars) st1 = (Ok (xi, rho, sig, Opt, Sig), st')
    ∧ snr = (Opt / Sig)%float.
Proof.
  intros Hrun. unfold compute_noise_maximized_os in Hrun.
  apply bind_ok_inv in Hrun as ([] & s0 & Hchk & Hrun).
  assert (s0 = (check_chain self chain st).2) as -> by (by rewrite Hchk).
  apply bind_ok_inv in Hrun as (col & s1 & Hcol & Hrun).
  apply lift_ok_inv in Hcol as [Hcol ->].
  apply bind_ok_inv in Hrun as (idx & s1 & Hidx & Hrun).
  apply lift_ok_inv in Hidx as [Hidx ->].
  apply bind_ok_inv in Hrun as (row & s1 & Hrow & Hrun).
  apply lift_ok_inv in Hrow as [Hrow ->].
  apply bind_ok_inv in Hrun as (setpars & st1 & Hsp & Hrun).
  apply bind_ok_inv in Hrun as ([[[[xi0 rho0] sig0] Opt0] Sig] & st2 & Hos & Hrun).
  apply ret_ok_inv in Hrun as [[= <- <- <- <- <-] ->].
  by exists col, idx, row, setpars, st1, Sig.
Qed.

(** C4. In both modes a returned signal-to-noise value is the quotient
    [OS / OS_sig] of the two aggregates that one call of [compute_os]
    returned: entry by entry in the noise-marginalized mode, for the single
    call in the noise-maximized mode. *)
Theorem snr_is_OS_over_OS_sig (chain : ndarray2 V) (names : option (list string)) (st : St) :
  (∀ N opt snr st',
     compute_noise_marginalized_os L self chain names N st = (Ok (opt, snr), st') →
     length snr = length opt
     ∧ ∀ k s, snr !! k = Some s →
         ∃ setpars sa sb r,
           compute_os L self (Some setpars) sa = (Ok r, sb)
           ∧ opt !! k = Some r.1.2
           ∧ s = (r.1.2 / r.2)%float)
  ∧ (∀ xi rho sig Opt snr st',
       compute_noise_maximized_os L self chain names st
       = (Ok (xi, rho, sig, Opt, snr), st') →
       ∃ setpars sa Sig,
         compute_os L self (Some setpars) sa = (Ok (xi, rho, sig, Opt, Sig), st')
         ∧ snr = (Opt / Sig)%float).
Proof.
  split.
  - intros N opt snr st' Hrun.
    apply marginalized_ok_inv in Hrun as (_ & ds & Hds & _ & -> & ->).
    rewrite !length_fmap. split; [done|]. intros k s Hk.
    rewrite list_lookup_fmap in Hk. destruct (ds !! k) as [d|] eqn:Hd; [|discriminate].
    injection Hk as <-.
    destruct (draws_lookup _ _ _ _ _ _ _ _ Hds Hd)
      as (sa & sb & sc & sd & row & r & _ & _ & Hr & HOS & Hsig & _).
    exists (dr_setpars d), sc, sd, r.
    rewrite list_lookup_fmap, Hd. simpl. by rewrite HOS, Hsig.
  - intros xi rho sig Opt snr st' Hrun.
    apply maximized_ok_inv in Hrun
      as (col & idx & row & setpars & st1 & Sig & _ & _ & _ & _ & Hos & ->).
    by exists setpars, st1, Sig.
Qed.

(** C7. A successful call of the noise-marginalized mode made [N] draws, one
    after the other, each with [np.random.randint(0, chain.shape[0])], and
    returns two arrays of length [N] whose [k]-th entries come from the [k]-th
    draw.  With [N = 0] the call succeeds, draws nothing and returns two
    empty arrays. *)
Theorem marginalized_returns_N_draws_in_order (chain : ndarray2 V)
    (names : option (list string)) (st : St) :
  (∀ N opt snr st',
     compute_noise_marginalized_os L self chain names N st = (Ok (opt, snr), st') →
     0 ≤ N ∧ length opt = Z.to_nat N ∧ length snr = Z.to_nat N
     ∧ ∃ ds, draws L self chain names ∅ (check_chain self chain st).2 ds st'
             ∧ opt = dr_OS <$> ds
             ∧ snr = (λ d, (dr_OS d / dr_OS_sig d)%float) <$> ds)
  ∧ compute_noise_marginalized_os L self chain names 0 st
    = (Ok ([], []), (check_chain self chain st).2).
Proof.
  split.
  - intros N opt snr st' Hrun.
    apply marginalized_ok_inv in Hrun as (HN & ds & Hds & Hlen & -> & ->).
    rewrite !length_fmap. split; [done|]. do 2 (split; [done|]). by exists ds.
  - unfold compute_noise_marginalized_os, bind. by rewrite check_chain_run.
Qed.

(** *** Dictionaries built from a list of names *)




End Properties.

(** ** The properties on the concrete model *)

Import Example.

Lemma float_neq_32_128 : 32%float ≠ 128%float.
Proof.
  intros Heq. apply (f_equal (λ x, PrimFloat.eqb x 32)) in Heq.
  vm_compute in Heq. discriminate.
Qed.

(** C1 on an empty dictionary: both names are reported, nothing is drawn and
    the noise model is asked for its products with the dictionary still
    empty. *)
Example compute_os_empty_dictionary :
  let run := compute_os toy_lib two_psrs (Some ∅) st0 in
  run.1 = Ok ([pi_float], [32%float], [4%float], 128%float, 16%float)
  ∧ warnings run.2 = [missing_msg "efac"; missing_msg "delay"]
  ∧ rng run.2 = rng st0
  ∧ head (calls run.2) = Some (PtaTNr ∅).
Proof. vm_compute. repeat split. Qed.

(** C2 as stated fails: two pulsars at opposite positions, for which the
    Hellings-Downs function is 1/4.  The single pair has [rho = 32], the
    aggregate is [OS = 128]. *)
Lemma single_pair_rho_differs_from_OS :
  length (_signalcollections (pta two_psrs)) = 2%nat
  ∧ (compute_os toy_lib two_psrs (Some toy_params) st0).1
    = Ok ([pi_float], [32%float], [4%float], 128%float, 16%float)
  ∧ [32%float] ≠ [128%float].
Proof.
  split; [reflexivity|]. split; [vm_compute; reflexivity|].
  intros Heq. apply float_neq_32_128. congruence.
Qed.

Lemma compute_os_single_pair_aggregate_witness :
  length (_signalcollections (pta two_psrs)) = 2%nat
  ∧ ∃ r s o pi pj,
      [32%float] = [r] ∧ [4%float] = [s]
      ∧ psrlocs two_psrs !! 0%nat = Some pi ∧ psrlocs two_psrs !! 1%nat = Some pj
      ∧ orf two_psrs pi pj = Ok o
      ∧ 128%float = (np_sum toy_lib [r * o / (s * s)] / np_sum toy_lib [o * o / (s * s)])%float.
Proof.
  split; [reflexivity|].
  apply (compute_os_single_pair_aggregate toy_lib two_psrs (Some toy_params) st0
           (compute_os toy_lib two_psrs (Some toy_params) st0).2
           [pi_float] [32%float] [4%float] 128%float 16%float).
  - reflexivity.
  - vm_compute. reflexivity.
Defined.

Lemma compute_os_aggregate_witness :
  compute_os toy_lib two_psrs (Some toy_params) st0
  = (Ok ([pi_float], [32%float], [4%float], 128%float, 16%float),
     (compute_os toy_lib two_psrs (Some toy_params) st0).2)
  ∧ ∃ ORF : list float,
      length ORF = 1%nat
      ∧ 128%float = spec_OS toy_lib (zip (zip [32%float] ORF) [4%float])
      ∧ 16%float = spec_OS_sigma toy_lib (zip (zip [32%float] ORF) [4%float]).
Proof.
  assert (Hrun : compute_os toy_lib two_psrs (Some toy_params) st0
                 = (Ok ([pi_float], [32%float], [4%float], 128%float, 16%float),
                    (compute_os toy_lib two_psrs (Some toy_params) st0).2))
    by (vm_compute; reflexivity).
  split; [exact Hrun|].
  destruct (compute_os_aggregate_is_weighted_combination _ _ _ _ _ _ _ _ _ _ Hrun)
    as (ORF & _ & _ & Hlen & _ & HOS & Hsig).
  by exists ORF.
Defined.

Lemma compute_os_one_entry_per_pair_witness :
  compute_os toy_lib three_psrs (Some toy_params) st0
  = (Ok ([pi_float; 0%float; pi_float], [32%float; 16%float; 8%float],
         [4%float; 4%float; 4%float], three_psrs_OS, three_psrs_OS_sig),
     (compute_os toy_lib three_psrs (Some toy_params) st0).2)
  ∧ length [pi_float; 0%float; pi_float] = (3 * (3 - 1) / 2)%nat
  ∧ length [32%float; 16%float; 8%float] = (3 * (3 - 1) / 2)%nat
  ∧ length [4%float; 4%float; 4%float] = (3 * (3 - 1) / 2)%nat
  ∧ pairs 3 = [(0, 1); (0, 2); (1, 2)]%nat.
Proof.
  assert (Hrun : compute_os toy_lib three_psrs (Some toy_params) st0
                 = (Ok ([pi_float; 0%float; pi_float], [32%float; 16%float; 8%float],
                        [4%float; 4%float; 4%float], three_psrs_OS, three_psrs_OS_sig),
                    (compute_os toy_lib three_psrs (Some toy_params) st0).2))
    by (vm_compute; reflexivity).
  split; [exact Hrun|].
  destruct (compute_os_one_entry_per_pair _ _ _ _ _ _ _ _ _ _ Hrun)
    as (Hxi & Hrho & Hsig & _).
  split; [exact Hxi|]. split; [exact Hrho|]. split; [exact Hsig | reflexivity].
Defined.



Lemma compute_os_supplied_params_witness :
  rng (compute_os toy_lib two_psrs (Some ∅) st0).2 = rng st0.
Proof.
  exact (proj1 (proj2 (compute_os_supplied_params_not_completed toy_lib two_psrs ∅ st0))).
Defined.

(** The three paths of the solve: a positive definite [Sigma], one without
    a Cholesky factor, and a singular one. *)
Example solve_Sigma_cholesky_path :
  solve_Sigma toy_lib 4%float 8%float 1%float st0
  = (Ok (2%float, 0.25%float),
     drawn [ChoFactor 4%float; ChoSolve (2%float, false) 8%float;
            ChoSolve (2%float, false) 1%float] 0 st0).
Proof. vm_compute. reflexivity. Qed.

Example solve_Sigma_dense_path :
  solve_Sigma toy_lib (-4)%float 8%float 1%float st0
  = (Ok ((-2)%float, (-0.25)%float),
     drawn [ChoFactor (-4)%float; LinalgSolve (-4)%float 8%float;
            LinalgSolve (-4)%float 1%float] 0 st0).
Proof. vm_compute. reflexivity. Qed.

Example compute_os_dense_path :
  (compute_os toy_lib indefinite_psrs (Some toy_params) st0).1
  = Ok ([pi_float], [32%float], [0x1.5555555555555p+0%float], 128%float,
        0x1.5555555555555p+2%float).
Proof. vm_compute. reflexivity. Qed.

Example compute_os_singular :
  (compute_os toy_lib singular_psrs (Some toy_params) st0).1 = Raise LinAlgError.
Proof. vm_compute. reflexivity. Qed.


Lemma toy_collections_white (sc : SignalCollection Z float float) (name : string) :
  sc ∈ _signalcollections (pta two_psrs) → name ∈ sc_white_params sc → name = "efac".
Proof.
  change (_signalcollections (pta two_psrs)) with [toy_sc 8%float; toy_sc 4%float].
  intros Hsc Hname.
  repeat (apply elem_of_cons in Hsc as [->|Hsc];
          [simpl in Hname; apply elem_of_cons in Hname as [->|Hname];
           [reflexivity | by apply elem_of_nil in Hname]|]).
  by apply elem_of_nil in Hsc.
Qed.

Lemma get_FNF_hit_witness :
  agree_on_white two_psrs toy_params toy_params'
  ∧ get_FNF toy_lib two_psrs toy_params' (get_FNF toy_lib two_psrs toy_params st0).2
    = (Ok [0.5%float; 0.5%float], (get_FNF toy_lib two_psrs toy_params st0).2)
  ∧ FNF_history toy_lib two_psrs [(toy_params, [0.5%float; 0.5%float])]
      (get_FNF toy_lib two_psrs toy_params st0).2
  ∧ ¬ agree_on_white two_psrs toy_params toy_params_efac2
  ∧ get_FNF toy_lib two_psrs toy_params_efac2 (get_FNF toy_lib two_psrs toy_params st0).2
    = match FNF_body toy_lib two_psrs toy_params_efac2
              (get_FNF toy_lib two_psrs toy_params st0).2 with
      | (Ok v, st') =>
          (Ok v, set_FNF_cache
                   ((cache_key (white_params two_psrs) toy_params_efac2, v)
                    :: FNF_cache st') st')
      | (Raise e, st') => (Raise e, st')
      end.
Proof.
  assert (Hfirst : get_FNF toy_lib two_psrs toy_params st0
                   = (Ok [0.5%float; 0.5%float],
                      (get_FNF toy_lib two_psrs toy_params st0).2))
    by (vm_compute; reflexivity).
  assert (Hagree : agree_on_white two_psrs toy_params toy_params').
  { intros sc name Hsc Hname. rewrite (toy_collections_white sc name Hsc Hname).
    vm_compute. reflexivity. }
  assert (Hh : FNF_history toy_lib two_psrs [(toy_params, [0.5%float; 0.5%float])]
                 (get_FNF toy_lib two_psrs toy_params st0).2).
  { eapply FNF_history_returned; [|exact Hfirst]. by apply FNF_history_fresh. }
  assert (Hdiff : ¬ agree_on_white two_psrs toy_params toy_params_efac2).
  { intros Hag. specialize (Hag (toy_sc 8%float) "efac").
    assert (Hne : toy_params !! "efac" ≠ toy_params_efac2 !! "efac")
      by (vm_compute; discriminate).
    apply Hne, Hag.
    - change (_signalcollections (pta two_psrs)) with [toy_sc 8%float; toy_sc 4%float].
      by left.
    - simpl. by left. }
  destruct (get_FNF_keyed_on_white_params toy_lib two_psrs) as (Hpair & Hseq & _).
  split; [exact Hagree|].
  split; [exact (Hpair toy_params toy_params' _ st0 _ Hagree Hfirst)|].
  split; [exact Hh|]. split; [exact Hdiff|].
  apply (proj2 (Hseq _ toy_params_efac2 _ Hh)).
  intros p' v Hin. apply elem_of_cons in Hin as [[= -> ->] | Hin]; [exact Hdiff|].
  by apply elem_of_nil in Hin.
Defined.

(** C8 as stated fails: three calls of [get_FNF] with the white-noise values
    1, 2 and 1.  The third call changes a white-noise value from the second,
    and computes nothing: it returns the result of the first call, and the
    noise model is not called. *)
Lemma get_FNF_changed_value_is_a_hit :
  let st1 := (get_FNF toy_lib two_psrs toy_params st0).2 in
  let st2 := (get_FNF toy_lib two_psrs toy_params_efac2 st1).2 in
  "efac" ∈ white_params two_psrs
  ∧ toy_params_efac2 !! "efac" ≠ toy_params !! "efac"
  ∧ (get_FNF toy_lib two_psrs toy_params_efac2 st1).1 = Ok [0.25%float; 0.25%float]
  ∧ get_FNF toy_lib two_psrs toy_params st2 = (Ok [0.5%float; 0.5%float], st2)
  ∧ (FNF_body toy_lib two_psrs toy_params st2).2 ≠ st2.
Proof.
  cbv zeta. split; [|split; [|split; [|split]]].
  - change (white_params two_psrs) with ["efac"; "efac"]. by left.
  - vm_compute. discriminate.
  - vm_compute. reflexivity.
  - vm_compute. reflexivity.
  - intros Heq. apply (f_equal (λ s, length (calls s))) in Heq.
    vm_compute in Heq. discriminate.
Qed.

(** A call with another white-noise value computes again. *)
Example get_FNF_recomputes :
  let st1 := (get_FNF toy_lib two_psrs toy_params st0).2 in
  let p := dict_of_pairs [("efac", 2); ("delay", 1)] in
  (get_FNF toy_lib two_psrs p st1).1 = Ok [0.25%float; 0.25%float]
  ∧ length (calls (get_FNF toy_lib two_psrs p st1).2) = (length (calls st1) + 4)%nat
  ∧ length (FNF_cache (get_FNF toy_lib two_psrs p st1).2) = 2%nat.
Proof. vm_compute. repeat split. Qed.

Lemma snr_is_OS_over_OS_sig_witness :
  compute_noise_marginalized_os toy_lib two_psrs toy_chain (Some ["efac"; "delay"]) 4 st0
  = (Ok ([128%float; 2048%float; 512%float; 128%float],
         [8%float; 128%float; 32%float; 8%float]),
     (compute_noise_marginalized_os toy_lib two_psrs toy_chain
        (Some ["efac"; "delay"]) 4 st0).2)
  ∧ ∃ setpars sa sb r,
      compute_os toy_lib two_psrs (Some setpars) sa = (Ok r, sb)
      ∧ [128%float; 2048%float; 512%float; 128%float] !! 1%nat = Some r.1.2
      ∧ 128%float = (r.1.2 / r.2)%float.
Proof.
  assert (Hrun : compute_noise_marginalized_os toy_lib two_psrs toy_chain
                   (Some ["efac"; "delay"]) 4 st0
                 = (Ok ([128%float; 2048%float; 512%float; 128%float],
                        [8%float; 128%float; 32%float; 8%float]),
                    (compute_noise_marginalized_os toy_lib two_psrs toy_chain
                       (Some ["efac"; "delay"]) 4 st0).2))
    by (vm_compute; reflexivity).
  split; [exact Hrun|].
  destruct (proj1 (snr_is_OS_over_OS_sig toy_lib two_psrs toy_chain
                     (Some ["efac"; "delay"]) st0) _ _ _ _ Hrun) as [_ Hsnr].
  exact (Hsnr 1%nat 128%float eq_refl).
Defined.

Lemma marginalized_returns_N_draws_witness :
  compute_noise_marginalized_os toy_lib two_psrs toy_chain None 4 st0
  = (Ok ([128%float; 2048%float; 512%float; 128%float],
         [8%float; 128%float; 32%float; 8%float]),
     (compute_noise_marginalized_os toy_lib two_psrs toy_chain None 4 st0).2)
  ∧ length [128%float; 2048%float; 512%float; 128%float] = Z.to_nat 4
  ∧ length [8%float; 128%float; 32%float; 8%float] = Z.to_nat 4.
Proof.
  assert (Hrun : compute_noise_marginalized_os toy_lib two_psrs toy_chain None 4 st0
                 = (Ok ([128%float; 2048%float; 512%float; 128%float],
                        [8%float; 128%float; 32%float; 8%float]),
                    (compute_noise_marginalized_os toy_lib two_psrs toy_chain None 4 st0).2))
    by (vm_compute; reflexivity).
  split; [exact Hrun|].
  destruct (proj1 (marginalized_returns_N_draws_in_order toy_lib two_psrs toy_chain None st0)
              _ _ _ _ Hrun) as (_ & Hopt & Hsnr & _).
  split; [exact Hopt | exact Hsnr].
Defined.

(** The rows are drawn in the order 0, 1, 2, 0 of the generator, and the
    results keep that order. *)
Example marginalized_draw_order :
  (compute_noise_marginalized_os toy_lib two_psrs toy_chain None 4 st0).1
  = Ok ([128%float; 2048%float; 512%float; 128%float],
        [8%float; 128%float; 32%float; 8%float])
  ∧ filter (λ c, is_draw c = true)
      (calls (compute_noise_marginalized_os toy_lib two_psrs toy_chain None 4 st0).2)
    = [Randint 0 3; Randint 0 3; Randint 0 3; Randint 0 3].
Proof. vm_compute. repeat split. Qed.

(** A name list shorter than the row: the value of the second column is
    dropped, the column-count check is silent because the model has two
    names, and [compute_os] reports the name the dictionary lacks. *)
Example maximized_short_name_list :
  let run := compute_noise_maximized_os toy_lib two_psrs toy_chain (Some ["efac"]) st0 in
  run.1 = Ok ([pi_float], [32%float], [4%float], 128%float, 8%float)
  ∧ warnings run.2 = [missing_msg "delay"].
Proof. vm_compute. repeat split. Qed.


(** ** The single-pair aggregate in exact arithmetic *)

Module ExactArithmetic.

Import QArith Qfield.

(** Over the rationals the quotient of the two weights of a single pair,
    [(rho·ORF/sig²) / (ORF²/sig²)], is [rho/ORF]: the aggregate of a
    two-pulsar model is the pair value divided by the overlap reduction
    function. *)
Remark single_pair_quotient_exact (rho ORF sig : Q) :
  ~ (ORF == 0)%Q -> ~ (sig == 0)%Q ->
  ((rho * ORF / (sig * sig)) / (ORF * ORF / (sig * sig)) == rho / ORF)%Q.
Proof. intros HORF Hsig. field. auto. Qed.

End ExactArithmetic.

(** ** Further properties of [compute_os] *)

Section MoreProperties.

Context {V A Par Nd G : Type} `{EqDecision V}.
Variable L : NumLib V A Par Nd G.
Variable self : OptimalStatistic V A Par Nd.

Local Open Scope py_scope.
Local Abbreviation dict := (gmap string V).
Local Abbreviation Py := (M V A G).
Local Abbreviation St := (state V A G).

Ltac inv_run H :=
  repeat
    match type of H with
    | bind _ _ _ = (Ok _, _) =>
        let Hstep := fresh "Hstep" in
        apply bind_ok_inv in H as (? & ? & Hstep & H);
        try (apply lift_ok_inv in Hstep as [Hstep ->]);
        try (apply index_ok_inv in Hstep as [Hstep ->])
    end.

(** *** Printed lines *)

Lemma same_stdout_refl (st : St) : same_stdout st st.
Proof. done. Qed.

Lemma same_stdout_trans (st1 st2 st3 : St) :
  same_stdout st1 st2 → same_stdout st2 st3 → same_stdout st1 st3.
Proof. unfold same_stdout. congruence. Qed.

Lemma same_stdout_ext {T} (c : call V A) (r : result T) :
  respects same_stdout (ext c r : Py T).
Proof. by intros st. Qed.

Lemma same_stdout_warn (msg : string) : respects same_stdout (warn msg : Py unit).
Proof. by intros st. Qed.

Lemma same_stdout_draw {T} (c : call V A) (f : G → T * G) :
  respects same_stdout (draw c f : Py T).
Proof. intros st. unfold draw. by destruct (f (rng st)). Qed.

Ltac stdout_step :=
  first
    [ apply (respects_ret _ same_stdout_refl)
    | apply (respects_raise _ same_stdout_refl)
    | apply (respects_lift _ same_stdout_refl)
    | apply (respects_index _ same_stdout_refl)
    | apply same_stdout_ext
    | apply same_stdout_warn
    | apply same_stdout_draw
    | apply (respects_bind _ same_stdout_trans); [|intros ?]
    | apply (respects_for_each _ same_stdout_refl same_stdout_trans); intros ? ?
    | apply (respects_try_except _ same_stdout_trans)
    | apply (respects_cache_call _ same_stdout_refl same_stdout_trans);
      [by intros ? ?|]
    | match goal with
      | |- respects same_stdout (match ?x with _ => _ end) => destruct x
      end ].

(** Everything [compute_os] does before the loop over the pairs. *)
Lemma same_stdout_products (params : dict) :
  respects same_stdout (get_TNr self params : Py (list A))
  ∧ respects same_stdout (get_TNT self params : Py (list A))
  ∧ respects same_stdout (get_FNr L self params)
  ∧ respects same_stdout (get_FNF L self params)
  ∧ respects same_stdout (get_FNT L self params)
  ∧ (∀ prods acc, respects same_stdout (for_each prods (pulsar_XZ L) acc)).
Proof.
  unfold get_TNr, get_TNT, get_FNr, get_FNF, get_FNT, FNr_body, FNF_body, FNT_body.
  repeat split; try (repeat stdout_step).
  intros prods acc. unfold pulsar_XZ, make_Sigma, solve_Sigma, cholesky_attempt,
    dense_fallback. repeat stdout_step.
Qed.

Lemma same_stdout_settle_params (params : option dict) :
  respects same_stdout
    (match params with
     | None => sample_params L self
     | Some params => check_params self params ;; ret params
     end).
Proof. unfold sample_params, check_params. repeat stdout_step. Qed.

Lemma get_phiIJ_run (params : dict) (st : St) :
  get_phiIJ L self params st
  = (powerlaw L (freqs self) (chosen_gamma self params),
     match gamma_common self, params !! "gw_gamma" with
     | None, Some g => add_stdout [format_1_2 L g] st
     | _, _ => st
     end).
Proof.
  unfold get_phiIJ, chosen_gamma.
  destruct (gamma_common self) as [g0|]; [done|].
  by destruct (params !! "gw_gamma").
Qed.

Lemma respects_run {T} (R : St → St → Prop) (m : Py T) (st st' : St) (r : result T) :
  respects R m → m st = (r, st') → R st st'.
Proof. intros HR Hm. specialize (HR st). by rewrite Hm in HR. Qed.

(** *** The loop over the pulsars *)

Lemma make_Sigma_inv (TNT phiinv Sigma : A) (st st' : St) :
  make_Sigma L TNT phiinv st = (Ok Sigma, st') →
  ∃ D, regularizer L phiinv = Ok D ∧ np_add L TNT D = Ok Sigma ∧ st' = st.
Proof.
  unfold make_Sigma, regularizer. intros Hrun.
  apply bind_ok_inv in Hrun as (D & s1 & HD & Hrun).
  apply lift_ok_inv in Hrun as [Hadd ->].
  destruct (ndim L phiinv =? 1)%nat.
  - apply lift_ok_inv in HD as [HD ->]. by exists D.
  - apply ret_ok_inv in HD as [<- ->]. by exists phiinv.
Qed.

Lemma pulsar_XZ_inv (X Z X' Z' : list A) (prod : A * A * A * A * A * A) (st st' : St) :
  pulsar_XZ L (X, Z) prod st = (Ok (X', Z'), st') →
  ∃ x z, pulsar_terms L prod x z ∧ X' = X ++ [x] ∧ Z' = Z ++ [z].
Proof.
  destruct prod as [[[[[TNr TNT] FNr] FNF] FNT] phiinv]. intros Hrun.
  unfold pulsar_XZ in Hrun.
  apply bind_ok_inv in Hrun as (Sigma & s1 & HS & Hrun).
  apply make_Sigma_inv in HS as (D & HD & Hadd & ->).
  apply bind_ok_inv in Hrun as (s & s2 & Hsolve & Hrun).
  inv_run Hrun. apply ret_ok_inv in Hrun as [[= <- <-] ->].
  do 2 eexists. split; [|done]. simpl.
  exists D, Sigma, s, st, s2. eauto 10.
Qed.

Lemma pulsar_loop_inv (prods : list (A * A * A * A * A * A)) (X0 Z0 X Z : list A)
    (st st' : St) :
  for_each prods (pulsar_XZ L) (X0, Z0) st = (Ok (X, Z), st') →
  ∃ xs zs, X = X0 ++ xs ∧ Z = Z0 ++ zs
           ∧ length xs = length prods ∧ length zs = length prods
           ∧ ∀ k prod, prods !! k = Some prod →
               ∃ x z, xs !! k = Some x ∧ zs !! k = Some z ∧ pulsar_terms L prod x z.
Proof.
  revert X0 Z0 st. induction prods as [|prod prods IH]; intros X0 Z0 st Hrun.
  - apply ret_ok_inv in Hrun as [[= <- <-] ->]. exists [], [].
    rewrite !app_nil_r. by repeat split.
  - cbn [for_each] in Hrun. apply bind_ok_inv in Hrun as ([X1 Z1] & s1 & Hp & Hrun).
    apply pulsar_XZ_inv in Hp as (x & z & Hxz & -> & ->).
    apply IH in Hrun as (xs & zs & -> & -> & Hlx & Hlz & Hall).
    exists (x :: xs), (z :: zs). rewrite <- !app_assoc. simpl.
    repeat split; try done; try congruence.
    intros [|k] prod' Hk; simpl in Hk.
    + injection Hk as <-. by exists x, z.
    + by apply Hall.
Qed.

(** What a successful run of everything after the dictionary is settled
    went through. *)
Lemma compute_os_with_ok_full (params : dict) (st st' : St)
    (xi rho sig : list float) (OS OS_sig : float) :
  compute_os_with L self params st = (Ok (xi, rho, sig, OS, OS_sig), st') →
  ∃ (TNrs TNTs FNrs FNFs FNTs phiinvs X Z : list A) (s1 s2 : St) (vs : list pair_result),
    pta_get_TNr (pta self) params = Ok TNrs
    ∧ pta_get_TNT (pta self) params = Ok TNTs
    ∧ get_phiinv (pta self) params = Ok phiinvs
    ∧ (∃ sa sb, get_FNr L self params sa = (Ok FNrs, sb))
    ∧ (∃ sa sb, get_FNF L self params sa = (Ok FNFs, sb))
    ∧ (∃ sa sb, get_FNT L self params sa = (Ok FNTs, sb))
    ∧ for_each (zip6 TNrs TNTs FNrs FNFs FNTs phiinvs) (pulsar_XZ L) ([], []) s1
      = (Ok (X, Z), s2)
    ∧ stdout s2 = stdout st
    ∧ runs (λ p, pair_stat L self params X Z p.1 p.2)
        (pairs (length (_signalcollections (pta self)))) s2 vs st'
    ∧ xi = pr_xi <$> vs ∧ rho = pr_rho <$> vs ∧ sig = pr_sig <$> vs.
Proof.
  intros Hrun. unfold compute_os_with in Hrun.
  destruct (same_stdout_products params) as (HTNr & HTNT & HFNr & HFNF & HFNT & Hloop).
  apply bind_ok_inv in Hrun as (TNrs & sa & H1 & Hrun).
  pose proof (respects_run _ _ _ _ _ HTNr H1) as Ho1.
  apply bind_ok_inv in Hrun as (TNTs & sb & H2 & Hrun).
  pose proof (respects_run _ _ _ _ _ HTNT H2) as Ho2.
  apply bind_ok_inv in Hrun as (FNrs & sc & H3 & Hrun).
  pose proof (respects_run _ _ _ _ _ HFNr H3) as Ho3.
  apply bind_ok_inv in Hrun as (FNFs & sd & H4 & Hrun).
  pose proof (respects_run _ _ _ _ _ HFNF H4) as Ho4.
  apply bind_ok_inv in Hrun as (FNTs & se & H5 & Hrun).
  pose proof (respects_run _ _ _ _ _ HFNT H5) as Ho5.
  apply bind_ok_inv in Hrun as (phiinvs & sf & H6 & Hrun).
  apply bind_ok_inv in Hrun as ([X Z] & sg & H7 & Hrun).
  pose proof (respects_run _ _ _ _ _ (Hloop _ _) H7) as Ho7.
  apply bind_ok_inv in Hrun as (acc & sh & H8 & Hrun).
  rewrite pair_loops_pairs in H8. apply pair_list_runs in H8 as (vs & Hruns & ->).
  simpl in Hrun. apply ret_ok_inv in Hrun as [[= <- <- <- <- <-] ->].
  unfold get_TNr, get_TNT, ext in H1, H2, H6.
  injection H1 as H1 <-. injection H2 as H2 <-. injection H6 as H6 <-.
  exists TNrs, TNTs, FNrs, FNFs, FNTs, phiinvs, X, Z, (log_call (PtaPhiinv params) se), sg, vs.
  do 3 (split; [done|]). do 3 (split; [eauto|]). split; [done|]. split; [|done].
  unfold same_stdout in *. simpl in *. congruence.
Qed.

Lemma compute_os_settled (params : option dict) (st st' : St)
    (r : list float * list float * list float * float * float) :
  compute_os L self params st = (Ok r, st') →
  ∃ d s0, compute_os_with L self d s0 = (Ok r, st')
          ∧ stdout s0 = stdout st
          ∧ ∀ d0, params = Some d0 → d = d0.
Proof.
  intros Hrun. unfold compute_os in Hrun.
  apply bind_ok_inv in Hrun as (d & s0 & Hd & Hrun).
  exists d, s0. split; [done|]. split.
  - exact (respects_run _ _ _ _ _ (same_stdout_settle_params params) Hd).
  - intros d0 ->. apply bind_ok_inv in Hd as (? & ? & _ & Hd).
    by apply ret_ok_inv in Hd as [-> _].
Qed.

Lemma pair_stat_inv (params : dict) (X Z : list A) (i j : nat) (v : pair_result)
    (st st' : St) :
  pair_stat L self params X Z i j st = (Ok v, st') →
  pair_formula L self params X Z i j (pr_rho v) (pr_sig v) (pr_xi v)
  ∧ st' = (get_phiIJ L self params st).2.
Proof.
  intros Hrun. unfold pair_stat in Hrun.
  apply bind_ok_inv in Hrun as (phi & s1 & Hphi & Hrun).
  rewrite get_phiIJ_run in Hphi |- *. injection Hphi as Hphi <-.
  inv_run Hrun. apply ret_ok_inv in Hrun as [<- ->]. simpl.
  repeat match goal with
         | H1 : ?r = Ok ?a, H2 : ?r = Ok ?b |- _ => rewrite H1 in H2; injection H2 as <-
         end.
  split; [|done]. unfold pair_formula. repeat eexists; eassumption.
Qed.


Lemma pair_formula_lookups (d : dict) (X Z : list A) (i j : nat) (r s a : float) :
  pair_formula L self d X Z i j r s a →
  (j < length X)%nat ∧ (j < length Z)%nat ∧ (j < length (psrlocs self))%nat.
Proof.
  intros (phi & Xi & Xj & pXj & Zi & Zj & row & Zpi & Zpj & ZZ & pi & pj & top & bot & c
          & _ & _ & HXj & _ & _ & _ & HZj & _ & _ & _ & _ & _ & _ & Hpj & _).
  apply lookup_lt_Some in HXj, HZj, Hpj. done.
Qed.

Lemma zip6_length_le {T1 T2 T3 T4 T5 T6} (a : list T1) (b : list T2) (c : list T3)
    (d : list T4) (e : list T5) (f : list T6) :
  (length (zip6 a b c d e f) ≤ length a)%nat
  ∧ (length (zip6 a b c d e f) ≤ length b)%nat
  ∧ (length (zip6 a b c d e f) ≤ length f)%nat.
Proof. unfold zip6. rewrite !length_zip_with. lia. Qed.

(** X2. With two pulsars or more, [compute_os] returns only when there is
    a sky position for every pulsar of the model and the noise model gave
    [TNr], [TNT] and [phiinv] for every one of them: shorter lists make the
    call raise. *)
Theorem compute_os_needs_an_entry_per_pulsar (params : option dict) (st st' : St)
    (r : list float * list float * list float * float * float) :
  (2 ≤ length (_signalcollections (pta self)))%nat →
  compute_os L self params st = (Ok r, st') →
  (length (_signalcollections (pta self)) ≤ length (psrlocs self))%nat
  ∧ ∃ (d : dict) (TNrs TNTs phiinvs : list A),
      pta_get_TNr (pta self) d = Ok TNrs
      ∧ pta_get_TNT (pta self) d = Ok TNTs
      ∧ get_phiinv (pta self) d = Ok phiinvs
      ∧ (length (_signalcollections (pta self)) ≤ length TNrs)%nat
      ∧ (length (_signalcollections (pta self)) ≤ length TNTs)%nat
      ∧ (length (_signalcollections (pta self)) ≤ length phiinvs)%nat.
Proof.
  intros HP Hrun. destruct r as [[[[xi rho] sig] OS] OS_sig].
  apply compute_os_settled in Hrun as (d & s0 & Hrun & _ & _).
  apply compute_os_with_ok_full in Hrun
    as (TNrs & TNTs & FNrs & FNFs & FNTs & phiinvs & X & Z & s1 & s2 & vs
        & H1 & H2 & H3 & _ & _ & _ & Hloop & _ & Hruns & _).
  apply pulsar_loop_inv in Hloop as (xs & zs & -> & -> & HlX & _ & _).
  set (P := length (_signalcollections (pta self))) in *.
  assert ((0, P - 1)%nat ∈ pairs P) as Hin by (apply pairs_elem_of; lia).
  apply list_elem_of_lookup in Hin as [k Hk].
  destruct (runs_lookup _ _ _ _ _ _ _ Hruns Hk) as (v & sa & sb & Hv & _).
  apply pair_stat_inv in Hv as [Hf _].
  apply pair_formula_lookups in Hf as (HX & _ & Hpos). simpl in HX, Hpos.
  destruct (zip6_length_le TNrs TNTs FNrs FNFs FNTs phiinvs) as (Ha & Hb & Hc).
  split; [lia|]. exists d, TNrs, TNTs, phiinvs. repeat split; try done; lia.
Qed.

(** X3. With fewer than two pulsars there is no pair: a call that returns
    gives three empty arrays, and the aggregates are those of empty sums,
    [OS = np.sum([]) / np.sum([])] and [OS_sig = 1/sqrt(np.sum([]))]. *)
Theorem compute_os_without_pairs (params : option dict) (st st' : St)
    (xi rho sig : list float) (OS OS_sig : float) :
  (length (_signalcollections (pta self)) ≤ 1)%nat →
  compute_os L self params st = (Ok (xi, rho, sig, OS, OS_sig), st') →
  xi = [] ∧ rho = [] ∧ sig = []
  ∧ OS = (np_sum L [] / np_sum L [])%float
  ∧ OS_sig = finv_sqrt (np_sum L []).
Proof.
  intros HP Hrun.
  apply compute_os_ok_inv in Hrun
    as (d & X & Z & st1 & vs & _ & Hruns & -> & -> & -> & -> & ->).
  assert (pairs (length (_signalcollections (pta self))) = []) as Hnil.
  { destruct (length (_signalcollections (pta self))) as [|[|n]]; [done|done|lia]. }
  rewrite Hnil in Hruns. inversion Hruns; subst. done.
Qed.

(** *** What is printed *)

Lemma same_stdout_fixed_gamma (g : V) (params : option dict) :
  gamma_common self = Some g →
  respects same_stdout (compute_os L self params).
Proof.
  intros Hg. unfold compute_os.
  apply (respects_bind _ same_stdout_trans); [apply same_stdout_settle_params|].
  intros d. destruct (same_stdout_products d) as (HTNr & HTNT & HFNr & HFNF & HFNT & Hloop).
  unfold compute_os_with.
  repeat (apply (respects_bind _ same_stdout_trans);
          [first [ exact HTNr | exact HTNT | exact HFNr | exact HFNF | exact HFNT
                 | apply Hloop | apply same_stdout_ext ] | intros ?]).
  apply (respects_bind _ same_stdout_trans).
  - unfold pair_loops, pair_body, get_phiIJ. rewrite Hg. repeat stdout_step.
  - intros [[[? ?] ?] ?]. apply (respects_ret _ same_stdout_refl).
Qed.

(** X4. With a fixed spectral index ([gamma_common] not [None]),
    [compute_os] prints nothing, whatever the dictionary holds and however
    the call ends. *)
Theorem compute_os_prints_nothing_with_fixed_gamma (g : V) (params : option dict) (st : St) :
  gamma_common self = Some g →
  stdout (compute_os L self params st).2 = stdout st.
Proof. intros Hg. exact (same_stdout_fixed_gamma g params Hg st). Qed.

Lemma pair_runs_stdout (d : dict) (X Z : list A) (g : V) (ps : list (nat * nat))
    (vs : list pair_result) (st st' : St) :
  gamma_common self = None → d !! "gw_gamma" = Some g →
  runs (λ p, pair_stat L self d X Z p.1 p.2) ps st vs st' →
  stdout st' = stdout st ++ replicate (length ps) (format_1_2 L g).
Proof.
  intros Hg Hd Hruns.
  induction Hruns as [st|p ps st v st1 vs st2 Hp _ IH]; simpl.
  - by rewrite app_nil_r.
  - apply pair_stat_inv in Hp as [_ ->]. rewrite get_phiIJ_run, Hg, Hd in IH.
    simpl in IH. by rewrite IH, <- app_assoc.
Qed.

(** X5. With a floating spectral index ([gamma_common] is [None]) and a
    dictionary that has "gw_gamma", a successful [compute_os] prints the
    formatted value once for every pulsar pair, [P(P−1)/2] lines in all. *)
Theorem compute_os_prints_gamma_once_per_pair (d : dict) (g : V) (st st' : St)
    (r : list float * list float * list float * float * float) :
  gamma_common self = None → d !! "gw_gamma" = Some g →
  compute_os L self (Some d) st = (Ok r, st') →
  let P := length (_signalcollections (pta self)) in
  stdout st' = stdout st ++ replicate (P * (P - 1) / 2) (format_1_2 L g).
Proof.
  intros Hg Hd Hrun P. destruct r as [[[[xi rho] sig] OS] OS_sig].
  apply compute_os_settled in Hrun as (d' & s0 & Hrun & Hout & Hd').
  rewrite (Hd' d eq_refl) in Hrun.
  apply compute_os_with_ok_full in Hrun
    as (TNrs & TNTs & FNrs & FNFs & FNTs & phiinvs & X & Z & s1 & s2 & vs
        & _ & _ & _ & _ & _ & _ & _ & Hout2 & Hruns & _).
  rewrite (pair_runs_stdout _ _ _ _ _ _ _ _ Hg Hd Hruns), pairs_length.
  by rewrite Hout2, Hout.
Qed.

(** *** The warnings of a whole call *)

Lemma missing_names_nil (params : dict) :
  missing_names self params = []
  ↔ ∀ name, name ∈ param_names (pta self) → is_Some (params !! name).
Proof.
  unfold missing_names. induction (param_names (pta self)) as [|p names IH].
  - split; [intros _ name Hin; by apply elem_of_nil in Hin | done].
  - rewrite filter_cons. destruct (decide (params !! p = None)) as [Hp|Hp].
    + split; [done|]. intros Hall. destruct (Hall p) as [v Hv]; [by left|congruence].
    + rewrite IH. split.
      * intros Hall name Hin. apply elem_of_cons in Hin as [->|Hin]; [|by apply Hall].
        by destruct (params !! p); [eexists|].
      * intros Hall name Hin. apply Hall. by right.
Qed.

(** X6. The calls of [warnings.warn] that the code of [compute_os] makes
    when it is given a dictionary are exactly those of the check of the
    names: one for every name of the model that the dictionary lacks, in the
    order of the model, however the call ends.  So a dictionary with all the
    names makes it warn of nothing, and a key that is no name of the model is
    never reported.  (A [RuntimeWarning] that numpy issues by itself in a
    floating-point operation is not a call of the module and is not counted
    here.) *)
Theorem compute_os_warnings_are_the_missing_names (params : dict) (st : St) :
  warnings (compute_os L self (Some params) st).2
  = warnings st ++ (missing_msg <$> missing_names self params)
  ∧ (missing_names self params = []
     ↔ ∀ name, name ∈ param_names (pta self) → is_Some (params !! name))
  ∧ ∀ name, name ∈ missing_names self params →
            name ∈ param_names (pta self) ∧ params !! name = None.
Proof.
  split; [|split; [apply missing_names_nil|]].
  - assert (Hrun : compute_os L self (Some params) st
                     = compute_os_with L self params
                         (add_warnings (missing_msg <$> missing_names self params) st)).
    { unfold compute_os. unfold bind at 1 2. by rewrite check_params_run. }
    rewrite Hrun.
    by destruct (quiet_compute_os_with L self params
                   (add_warnings (missing_msg <$> missing_names self params) st))
      as (-> & _).
  - intros name Hin. unfold missing_names in Hin.
    apply list_elem_of_filter in Hin as [Hnone Hin]. done.
Qed.

(** *** The bodies of the memoized products *)

Lemma enumerate_loop {T} (f : nat → T → Py A) (xs : list T) (n : nat)
    (acc res : list A) (st st' : St) :
  for_each (imap (λ ct x, ((n + ct)%nat, x)) xs)
    (λ acc cs, r <- f cs.1 cs.2 ;; ret (acc ++ [r])) acc st = (Ok res, st') →
  ∃ rs, res = acc ++ rs ∧ length rs = length xs
        ∧ ∀ ct x, xs !! ct = Some x →
            ∃ r sa sb, f (n + ct)%nat x sa = (Ok r, sb) ∧ rs !! ct = Some r.
Proof.
  revert n acc st. induction xs as [|x xs IH]; intros n acc st Hrun.
  - apply ret_ok_inv in Hrun as [<- ->]. exists []. rewrite app_nil_r. by repeat split.
  - rewrite imap_cons in Hrun. cbn [for_each] in Hrun.
    apply bind_ok_inv in Hrun as (acc1 & s1 & Hx & Hrun).
    apply bind_ok_inv in Hx as (r & s2 & Hr & Hx).
    apply ret_ok_inv in Hx as [<- ->]. simpl in Hr.
    rewrite (imap_ext _ (λ ct x, ((S n + ct)%nat, x))) in Hrun
      by (intros; simpl; f_equal; lia).
    apply IH in Hrun as (rs & -> & Hlen & Hall).
    exists (r :: rs). rewrite <- app_assoc. split; [done|]. split; [simpl; lia|].
    intros [|ct] y Hy; simpl in Hy.
    + injection Hy as <-. by exists r, st, s2.
    + destruct (Hall ct y Hy) as (r' & sa & sb & Hf & Hr').
      exists r', sa, sb. split; [|done]. by replace (n + S ct)%nat with (S n + ct)%nat by lia.
Qed.

Lemma FNF_body_loop (params : dict) (st : St) :
  FNF_body L self params st
  = for_each (imap (λ ct x, ((0 + ct)%nat, x)) (_signalcollections (pta self)))
      (λ acc cs,
         r <- (N <- ext (GetNdiag cs.1 params) (get_ndiag cs.2 params) ;;
               F <- index (Fmats self) cs.1 ;;
               ext (NdiagSolve cs.1 F F) (Nd_solve L N F F)) ;;
         ret (acc ++ [r])) [] st.
Proof.
  unfold FNF_body. apply for_each_ext. intros acc cs s.
  unfold bind, ext, index, ret, raise.
  destruct (get_ndiag cs.2 params); [|done].
  destruct (Fmats self !! cs.1); [|done]. by destruct (Nd_solve L _ _ _).
Qed.

Lemma FNr_body_loop (params : dict) (st : St) :
  FNr_body L self params st
  = for_each (imap (λ ct x, ((0 + ct)%nat, x)) (_signalcollections (pta self)))
      (λ acc cs,
         r <- (N <- ext (GetNdiag cs.1 params) (get_ndiag cs.2 params) ;;
               F <- index (Fmats self) cs.1 ;;
               res <- ext (GetDetres cs.1 params) (get_detres cs.2 params) ;;
               ext (NdiagSolve cs.1 res F) (Nd_solve L N res F)) ;;
         ret (acc ++ [r])) [] st.
Proof.
  unfold FNr_body. apply for_each_ext. intros acc cs s.
  unfold bind, ext, index, ret, raise.
  destruct (get_ndiag cs.2 params); [|done].
  destruct (Fmats self !! cs.1); [|done].
  destruct (get_detres cs.2 params); [|done]. by destruct (Nd_solve L _ _ _).
Qed.

Lemma FNT_body_loop (params : dict) (st : St) :
  FNT_body L self params st
  = for_each (imap (λ ct x, ((0 + ct)%nat, x)) (_signalcollections (pta self)))
      (λ acc cs,
         r <- (N <- ext (GetNdiag cs.1 params) (get_ndiag cs.2 params) ;;
               F <- index (Fmats self) cs.1 ;;
               T <- ext (GetBasis cs.1 params) (get_basis cs.2 params) ;;
               ext (NdiagSolve cs.1 T F) (Nd_solve L N T F)) ;;
         ret (acc ++ [r])) [] st.
Proof.
  unfold FNT_body. apply for_each_ext. intros acc cs s.
  unfold bind, ext, index, ret, raise.
  destruct (get_ndiag cs.2 params); [|done].
  destruct (Fmats self !! cs.1); [|done].
  destruct (get_basis cs.2 params); [|done]. by destruct (Nd_solve L _ _ _).
Qed.

Lemma lookup_last_bound {T U} (xs : list T) (ys : list U) :
  (∀ ct x, xs !! ct = Some x → is_Some (ys !! ct)) → (length xs ≤ length ys)%nat.
Proof.
  intros Hall. destruct xs as [|x0 xs] using rev_ind; [simpl; lia|].
  clear IHxs. destruct (Hall (length xs) x0) as [y Hy].
  { by rewrite lookup_app_r, Nat.sub_diag by lia. }
  apply lookup_lt_Some in Hy. rewrite length_app. simpl. lia.
Qed.

(** X7. The bodies of [get_FNF], [get_FNr] and [get_FNT], when they
    return, return one product for every signal collection, in their order:
    for collection [ct] it is [N.solve(rhs, left_array=Fmats[ct])] with
    [N = sc.get_ndiag(params)] and [rhs] the F-matrix itself, the residuals
    [sc.get_detres(params)] and the basis [sc.get_basis(params)]
    respectively.  They return only if there is an F-matrix for every
    collection. *)
Theorem product_bodies_one_entry_per_collection (params : dict) (st st' : St) :
  (∀ FNFs, FNF_body L self params st = (Ok FNFs, st') →
     length FNFs = length (_signalcollections (pta self))
     ∧ (length (_signalcollections (pta self)) ≤ length (Fmats self))%nat
     ∧ ∀ ct sc, _signalcollections (pta self) !! ct = Some sc →
         ∃ N F r, get_ndiag sc params = Ok N ∧ Fmats self !! ct = Some F
                  ∧ Nd_solve L N F F = Ok r ∧ FNFs !! ct = Some r)
  ∧ (∀ FNrs, FNr_body L self params st = (Ok FNrs, st') →
       length FNrs = length (_signalcollections (pta self))
       ∧ (length (_signalcollections (pta self)) ≤ length (Fmats self))%nat
       ∧ ∀ ct sc, _signalcollections (pta self) !! ct = Some sc →
           ∃ N F res r, get_ndiag sc params = Ok N ∧ Fmats self !! ct = Some F
                        ∧ get_detres sc params = Ok res
                        ∧ Nd_solve L N res F = Ok r ∧ FNrs !! ct = Some r)
  ∧ (∀ FNTs, FNT_body L self params st = (Ok FNTs, st') →
       length FNTs = length (_signalcollections (pta self))
       ∧ (length (_signalcollections (pta self)) ≤ length (Fmats self))%nat
       ∧ ∀ ct sc, _signalcollections (pta self) !! ct = Some sc →
           ∃ N F T r, get_ndiag sc params = Ok N ∧ Fmats self !! ct = Some F
                      ∧ get_basis sc params = Ok T
                      ∧ Nd_solve L N T F = Ok r ∧ FNTs !! ct = Some r).
Proof.
  split; [|split].
  - intros FNFs Hrun. rewrite FNF_body_loop in Hrun.
    apply (enumerate_loop (λ ct sc,
             N <- ext (GetNdiag ct params) (get_ndiag sc params) ;;
             F <- index (Fmats self) ct ;;
             ext (NdiagSolve ct F F) (Nd_solve L N F F)))
      in Hrun as (rs & -> & Hlen & Hall). simpl.
    assert (Hent : ∀ ct sc, _signalcollections (pta self) !! ct = Some sc →
              ∃ N F r, get_ndiag sc params = Ok N ∧ Fmats self !! ct = Some F
                       ∧ Nd_solve L N F F = Ok r ∧ rs !! ct = Some r).
    { intros ct sc Hsc. destruct (Hall ct sc Hsc) as (r & sa & sb & Hf & Hr).
      simpl in Hf. inv_run Hf. apply lift_ok_inv in Hf as [Hf _]. eauto 10. }
    split; [done|]. split; [|done].
    apply lookup_last_bound. intros ct sc Hsc.
    destruct (Hent ct sc Hsc) as (N & F & r & _ & HF & _). by exists F.
  - intros FNrs Hrun. rewrite FNr_body_loop in Hrun.
    apply (enumerate_loop (λ ct sc,
             N <- ext (GetNdiag ct params) (get_ndiag sc params) ;;
             F <- index (Fmats self) ct ;;
             res <- ext (GetDetres ct params) (get_detres sc params) ;;
             ext (NdiagSolve ct res F) (Nd_solve L N res F)))
      in Hrun as (rs & -> & Hlen & Hall). simpl.
    assert (Hent : ∀ ct sc, _signalcollections (pta self) !! ct = Some sc →
              ∃ N F res r, get_ndiag sc params = Ok N ∧ Fmats self !! ct = Some F
                           ∧ get_detres sc params = Ok res
                           ∧ Nd_solve L N res F = Ok r ∧ rs !! ct = Some r).
    { intros ct sc Hsc. destruct (Hall ct sc Hsc) as (r & sa & sb & Hf & Hr).
      simpl in Hf. inv_run Hf. apply lift_ok_inv in Hf as [Hf _]. eauto 10. }
    split; [done|]. split; [|done].
    apply lookup_last_bound. intros ct sc Hsc.
    destruct (Hent ct sc Hsc) as (N & F & res & r & _ & HF & _). by exists F.
  - intros FNTs Hrun. rewrite FNT_body_loop in Hrun.
    apply (enumerate_loop (λ ct sc,
             N <- ext (GetNdiag ct params) (get_ndiag sc params) ;;
             F <- index (Fmats self) ct ;;
             T <- ext (GetBasis ct params) (get_basis sc params) ;;
             ext (NdiagSolve ct T F) (Nd_solve L N T F)))
      in Hrun as (rs & -> & Hlen & Hall). simpl.
    assert (Hent : ∀ ct sc, _signalcollections (pta self) !! ct = Some sc →
              ∃ N F T r, get_ndiag sc params = Ok N ∧ Fmats self !! ct = Some F
                         ∧ get_basis sc params = Ok T
                         ∧ Nd_solve L N T F = Ok r ∧ rs !! ct = Some r).
    { intros ct sc Hsc. destruct (Hall ct sc Hsc) as (r & sa & sb & Hf & Hr).
      simpl in Hf. inv_run Hf. apply lift_ok_inv in Hf as [Hf _]. eauto 10. }
    split; [done|]. split; [|done].
    apply lookup_last_bound. intros ct sc Hsc.
    destruct (Hent ct sc Hsc) as (N & F & T & r & _ & HF & _). by exists F.
Qed.

(** *** Edge cases of the noise drivers *)

(** X8. The noise-marginalized mode raises [ValueError] for a negative
    [N] (from [np.zeros]) and for a positive [N] on a chain without rows
    (from [np.random.randint(0, 0)] in the first round); in both cases
    nothing has happened but the column-count check: no draw, no call of the
    noise model. *)
Theorem marginalized_rejects_bad_sizes (chain : ndarray2 V)
    (names : option (list string)) (N : Z) (st : St) :
  N < 0 ∨ (0 < N ∧ rows chain = []) →
  compute_noise_marginalized_os L self chain names N st
  = (Raise ValueError, (check_chain self chain st).2).
Proof.
  intros HN. unfold compute_noise_marginalized_os. unfold bind at 1.
  rewrite check_chain_run. cbn [snd].
  set (s := if bool_decide _ then _ else _). clearbody s.
  destruct HN as [HN | [HN Hrows]].
  - unfold bind, np_zeros. by rewrite (proj2 (Z.ltb_lt N 0)).
  - unfold np_zeros. rewrite (proj2 (Z.ltb_ge N 0)) by lia.
    destruct (Z.to_nat N) as [|n] eqn:Hn; [lia|].
    unfold bind at 1 2. cbn [ret]. cbn [seq for_each].
    unfold marginalized_step, np_random_randint, shape0. rewrite Hrows.
    reflexivity.
Qed.

(** X9. The noise-maximized mode raises [IndexError] on a chain with
    fewer than four columns (from [chain[:, -4]]), after the column-count
    check and before anything else. *)
Theorem maximized_needs_four_columns (chain : ndarray2 V)
    (names : option (list string)) (st : St) :
  (ncols chain < 4)%nat →
  compute_noise_maximized_os L self chain names st
  = (Raise IndexError, (check_chain self chain st).2).
Proof.
  intros Hn. unfold compute_noise_maximized_os. unfold bind at 1.
  rewrite check_chain_run. cbn [snd].
  set (s := if bool_decide _ then _ else _). clearbody s.
  unfold bind, lift, chain_col_m4. by rewrite (proj2 (Nat.ltb_lt _ _) Hn).
Qed.

Lemma chain_row_nat (chain : ndarray2 V) (idx : nat) (row : list V) :
  chain_row chain (Z.of_nat idx) = Ok row →
  ∃ r, rows chain !! idx = Some r ∧ row = drop_last4 r.
Proof.
  unfold chain_row, py_index. rewrite (proj2 (Z.ltb_ge _ _)) by lia.
  rewrite Nat2Z.id. destruct (_ && _); [|done].
  destruct (rows chain !! idx) as [r|]; [|done]. intros [= <-]. by exists r.
Qed.

Lemma chain_row_elem (chain : ndarray2 V) (idx : Z) (row : list V) :
  chain_row chain idx = Ok row → ∃ r, r ∈ rows chain ∧ row = drop_last4 r.
Proof.
  unfold chain_row, py_index. destruct (_ && _); [|done].
  destruct (rows chain !! _) as [r|] eqn:Hr; [|done]. intros [= <-].
  exists r. split; [|done]. by eapply list_elem_of_lookup_2.
Qed.

(** X10. On a well-formed chain with at most four columns, a call of the
    noise-marginalized mode with a name list that returns has found
    [chain[idx, :-4]] empty in every round and has called [compute_os] with
    the empty dictionary each time. *)
Theorem marginalized_narrow_chain_empty_dictionaries (chain : ndarray2 V)
    (pn : list string) (N : Z) (opt snr : list float) (st st' : St) :
  chain_wf chain → (ncols chain ≤ 4)%nat →
  compute_noise_marginalized_os L self chain (Some pn) N st = (Ok (opt, snr), st') →
  ∃ ds, draws L self chain (Some pn) ∅ (check_chain self chain st).2 ds st'
        ∧ length ds = Z.to_nat N
        ∧ opt = dr_OS <$> ds
        ∧ ∀ d, d ∈ ds →
            chain_row chain (dr_idx d) = Ok [] ∧ dr_setpars d = ∅.
Proof.
  intros Hwf Hn Hrun.
  apply marginalized_ok_inv in Hrun as (_ & ds & Hds & Hlen & -> & _).
  exists ds. do 3 (split; [done|]). intros d Hd.
  apply list_elem_of_lookup_1 in Hd as [k Hk].
  destruct (draws_lookup L self _ _ _ _ _ _ _ _ Hds Hk)
    as (sa & sb & sc & sd & row & r & _ & Hrow & _ & _ & _ & Hpn).
  destruct (Hpn pn eq_refl) as [Hsp _].
  destruct (chain_row_elem _ _ _ Hrow) as (r0 & Hr0 & ->).
  assert (Hlen0 : length r0 = ncols chain).
  { unfold chain_wf in Hwf. rewrite Forall_forall in Hwf. by apply Hwf. }
  assert (Hnil : drop_last4 r0 = []).
  { unfold drop_last4. replace (length r0 - 4)%nat with 0%nat by lia. done. }
  rewrite Hnil in Hrow, Hsp. split; [done|].
  rewrite Hsp. by rewrite zip_with_nil_r.
Qed.

Lemma draws_None_consecutive (chain : ndarray2 V) (sp : dict) (st st' : St)
    (ds : list draw_result) :
  draws L self chain None sp st ds st' →
  (∀ d, ds !! 0%nat = Some d →
     ∃ row m, chain_row chain (dr_idx d) = Ok row
              ∧ map_params (pta self) row = Ok m
              ∧ dr_setpars d = dict_update sp m)
  ∧ ∀ k d d', ds !! k = Some d → ds !! S k = Some d' →
      ∃ row m, chain_row chain (dr_idx d') = Ok row
               ∧ map_params (pta self) row = Ok m
               ∧ dr_setpars d' = dict_update (dr_setpars d) m.
Proof.
  induction 1 as [|sp st idx st1 row sp' st2 r st3 ds st4 Hidx Hrow Hsp Hr _ [IH0 IH]].
  - split; intros; by rewrite lookup_nil in *.
  - assert (Hhead : ∃ m, map_params (pta self) row = Ok m ∧ sp' = dict_update sp m).
    { simpl in Hsp. apply bind_ok_inv in Hsp as (m & s1 & Hm & Hsp).
      apply lift_ok_inv in Hm as [Hm _]. apply ret_ok_inv in Hsp as [<- _].
      by exists m. }
    destruct Hhead as (m & Hm & ->). split.
    + intros d [= <-]. by exists row, m.
    + intros [|k] d d' Hd Hd'; simpl in Hd, Hd'.
      * injection Hd as <-. exact (IH0 d' Hd').
      * exact (IH k d d' Hd Hd').
Qed.

Lemma draws_None_keys_kept (chain : ndarray2 V) (sp : dict) (st st' : St)
    (ds : list draw_result) :
  draws L self chain None sp st ds st' →
  ∀ k d name, ds !! k = Some d →
    is_Some (sp !! name) → is_Some (dr_setpars d !! name).
Proof.
  induction 1 as [|sp st idx st1 row sp' st2 r st3 ds st4 Hidx Hrow Hsp Hr _ IH].
  - intros; by rewrite lookup_nil in *.
  - assert (Hstep : ∀ name, is_Some (sp !! name) → is_Some (sp' !! name)).
    { simpl in Hsp. apply bind_ok_inv in Hsp as (m & s1 & Hm & Hsp).
      apply ret_ok_inv in Hsp as [<- _]. intros name Hname.
      unfold dict_update. apply lookup_union_is_Some. by right. }
    intros [|k] d name Hd Hname; simpl in Hd.
    + injection Hd as <-. by apply Hstep.
    + apply (IH k d name Hd). by apply Hstep.
Qed.

Lemma draws_drop (chain : ndarray2 V) (names : option (list string)) (sp : dict)
    (st st' : St) (ds : list draw_result) (k : nat) (d : draw_result) :
  draws L self chain names sp st ds st' → ds !! k = Some d →
  ∃ s, draws L self chain names (dr_setpars d) s (drop (S k) ds) st'.
Proof.
  intros Hds. revert k.
  induction Hds as [|sp st idx st1 row sp' st2 r st3 ds st4 Hidx Hrow Hsp Hr Hds IH];
    intros k Hk.
  - by rewrite lookup_nil in Hk.
  - destruct k as [|k]; simpl in Hk.
    + injection Hk as <-. simpl. rewrite drop_0. by exists st3.
    + exact (IH k Hk).
Qed.

(** X11. Without a name list the noise-marginalized mode keeps one
    dictionary over all rounds ([setpars.update(...)]): the first round's
    dictionary is [self.pta.map_params(row)] of its row, every later one is
    the previous one updated with [map_params] of the new row, and a name
    that has a value in one round has one in every later round. *)
Theorem marginalized_dictionary_accumulates (chain : ndarray2 V) (N : Z)
    (opt snr : list float) (st st' : St) :
  compute_noise_marginalized_os L self chain None N st = (Ok (opt, snr), st') →
  ∃ ds, draws L self chain None ∅ (check_chain self chain st).2 ds st'
        ∧ length ds = Z.to_nat N
        ∧ (∀ d, ds !! 0%nat = Some d →
             ∃ row, chain_row chain (dr_idx d) = Ok row
                    ∧ map_params (pta self) row = Ok (dr_setpars d))
        ∧ (∀ k d d', ds !! k = Some d → ds !! S k = Some d' →
             ∃ row m, chain_row chain (dr_idx d') = Ok row
                      ∧ map_params (pta self) row = Ok m
                      ∧ dr_setpars d' = dict_update (dr_setpars d) m)
        ∧ (∀ k k' d d' name, (k ≤ k')%nat → ds !! k = Some d → ds !! k' = Some d' →
             is_Some (dr_setpars d !! name) → is_Some (dr_setpars d' !! name)).
Proof.
  intros Hrun.
  apply marginalized_ok_inv in Hrun as (_ & ds & Hds & Hlen & _ & _).
  exists ds. do 2 (split; [done|]).
  destruct (draws_None_consecutive _ _ _ _ _ Hds) as [H0 Hnext].
  split; [|split; [exact Hnext|]].
  - intros d Hd. destruct (H0 d Hd) as (row & m & Hrow & Hm & Hsp).
    exists row. split; [done|]. rewrite Hsp. unfold dict_update.
    by rewrite (right_id_L ∅ (∪)).
  - intros k k' d d' name Hle Hd Hd' Hname.
    destruct (decide (k = k')) as [->|Hne].
    { rewrite Hd in Hd'. by injection Hd' as <-. }
    destruct (draws_drop _ _ _ _ _ _ _ _ Hds Hd) as [s Hrest].
    eapply (draws_None_keys_kept _ _ _ _ _ Hrest (k' - S k)%nat); [|done].
    rewrite lookup_drop. by replace (S k + (k' - S k))%nat with k' by lia.
Qed.

Lemma chain_col_m4_entries {T} (n : nat) (rs : list (list T)) :
  Forall (λ r, length r = n) rs → (4 ≤ n)%nat →
  Forall2 (λ r c, r !! (n - 4)%nat = Some c) rs
    (omap (λ row, row !! (length row - 4)%nat) rs).
Proof.
  intros Hwf Hn. induction Hwf as [|r rs Hr _ IH]; [constructor|].
  cbn [omap list_omap]. rewrite Hr.
  destruct (lookup_lt_is_Some_2 r (n - 4)%nat) as [c Hc]; [lia|].
  rewrite Hc. by constructor.
Qed.

(** X12. The noise-maximized mode, when it returns on a well-formed
    chain, has taken the column fourth from the end ([chain[:, -4]]) of all
    rows, the row [idx] at its [np.argmax], and that row without its last
    four entries as the parameter values: these are mapped by
    [self.pta.map_params] or zipped with the name list, and the result is the
    one of [compute_os] on that dictionary. *)
Theorem maximized_uses_argmax_row (chain : ndarray2 V)
    (names : option (list string)) (xi rho sig : list float) (Opt snr : float)
    (st st' : St) :
  chain_wf chain →
  compute_noise_maximized_os L self chain names st = (Ok (xi, rho, sig, Opt, snr), st') →
  (4 ≤ ncols chain)%nat ∧
  ∃ col idx row setpars st1 Sig,
    Forall2 (λ r c, r !! (ncols chain - 4)%nat = Some c) (rows chain) col
    ∧ np_argmax L col = Ok idx
    ∧ rows chain !! idx = Some row
    ∧ match names with
      | None => map_params (pta self) (take (ncols chain - 4) row) = Ok setpars
      | Some pn => setpars = dict_of_pairs (zip pn (take (ncols chain - 4) row))
      end
    ∧ compute_os L self (Some setpars) st1 = (Ok (xi, rho, sig, Opt, Sig), st')
    ∧ snr = (Opt / Sig)%float.
Proof.
  intros Hwf Hrun.
  apply maximized_ok_inv in Hrun
    as (col & idx & row & setpars & st1 & Sig & Hcol & Hidx & Hrow & Hsp & Hos & ->).
  unfold chain_col_m4 in Hcol. destruct (ncols chain <? 4)%nat eqn:Hn; [done|].
  apply Nat.ltb_ge in Hn. injection Hcol as <-. split; [done|].
  apply chain_row_nat in Hrow as (r & Hr & ->).
  assert (Hlen : length r = ncols chain).
  { unfold chain_wf in Hwf. rewrite Forall_forall in Hwf. apply Hwf.
    by eapply list_elem_of_lookup_2. }
  unfold drop_last4 in Hsp. rewrite Hlen in Hsp.
  eexists _, idx, r, setpars, st1, Sig.
  split; [by apply chain_col_m4_entries|]. do 2 (split; [done|]).
  split; [|done]. destruct names as [pn|]; simpl in Hsp.
  - by apply ret_ok_inv in Hsp as [<- _].
  - by apply lift_ok_inv in Hsp as [Hsp _].
Qed.

Lemma enumerate_loop_ok {T} (f : nat → T → Py A) (xs : list T) (n : nat)
    (acc : list A) (st : St) :
  (∀ ct x, xs !! ct = Some x → ∀ s, ∃ r s', f (n + ct)%nat x s = (Ok r, s')) →
  ∃ res st',
    for_each (imap (λ ct x, ((n + ct)%nat, x)) xs)
      (λ acc cs, r <- f cs.1 cs.2 ;; ret (acc ++ [r])) acc st = (Ok res, st').
Proof.
  revert n acc st. induction xs as [|x xs IH]; intros n acc st Hall.
  - by exists acc, st.
  - rewrite imap_cons. cbn [for_each].
    destruct (Hall 0%nat x eq_refl st) as (r & s1 & Hr).
    rewrite (imap_ext _ (λ ct x, ((S n + ct)%nat, x)))
      by (intros; simpl; f_equal; lia).
    destruct (IH (S n) (acc ++ [r]) s1) as (res & st' & Hrun).
    { intros ct y Hy s. replace (S n + ct)%nat with (n + S ct)%nat by lia.
      by apply Hall. }
    exists res, st'. unfold bind at 1 2. cbn [fst snd]. by rewrite Hr.
Qed.

(** X20. The bodies of [get_FNF], [get_FNr] and [get_FNT] return
    whenever there is an F-matrix for every signal collection and the calls
    of the noise model they make for each collection ([get_ndiag],
    [get_detres], [get_basis], [N.solve]) return: nothing else in them can
    fail. *)
Theorem product_bodies_return (params : dict) (st : St) :
  (length (_signalcollections (pta self)) ≤ length (Fmats self))%nat →
  ((∀ ct sc F, _signalcollections (pta self) !! ct = Some sc → Fmats self !! ct = Some F →
      ∃ N r, get_ndiag sc params = Ok N ∧ Nd_solve L N F F = Ok r) →
   ∃ FNFs st', FNF_body L self params st = (Ok FNFs, st'))
  ∧ ((∀ ct sc F, _signalcollections (pta self) !! ct = Some sc → Fmats self !! ct = Some F →
        ∃ N res r, get_ndiag sc params = Ok N ∧ get_detres sc params = Ok res
                   ∧ Nd_solve L N res F = Ok r) →
     ∃ FNrs st', FNr_body L self params st = (Ok FNrs, st'))
  ∧ ((∀ ct sc F, _signalcollections (pta self) !! ct = Some sc → Fmats self !! ct = Some F →
        ∃ N T r, get_ndiag sc params = Ok N ∧ get_basis sc params = Ok T
                 ∧ Nd_solve L N T F = Ok r) →
     ∃ FNTs st', FNT_body L self params st = (Ok FNTs, st')).
Proof.
  intros Hlen.
  assert (HF : ∀ ct sc, _signalcollections (pta self) !! ct = Some sc →
                 ∃ F, Fmats self !! ct = Some F).
  { intros ct sc Hsc. apply lookup_lt_Some in Hsc.
    apply lookup_lt_is_Some_2. lia. }
  split; [|split]; intros Hlib.
  - rewrite FNF_body_loop.
    apply (enumerate_loop_ok (λ ct sc,
             N <- ext (GetNdiag ct params) (get_ndiag sc params) ;;
             F <- index (Fmats self) ct ;;
             ext (NdiagSolve ct F F) (Nd_solve L N F F))).
    intros ct sc Hsc s. destruct (HF ct sc Hsc) as [F HFct].
    destruct (Hlib ct sc F Hsc HFct) as (N & r & HN & Hr).
    simpl. unfold bind, ext, index, ret. rewrite HN, HFct, Hr. by eexists _, _.
  - rewrite FNr_body_loop.
    apply (enumerate_loop_ok (λ ct sc,
             N <- ext (GetNdiag ct params) (get_ndiag sc params) ;;
             F <- index (Fmats self) ct ;;
             res <- ext (GetDetres ct params) (get_detres sc params) ;;
             ext (NdiagSolve ct res F) (Nd_solve L N res F))).
    intros ct sc Hsc s. destruct (HF ct sc Hsc) as [F HFct].
    destruct (Hlib ct sc F Hsc HFct) as (N & res & r & HN & Hres & Hr).
    simpl. unfold bind, ext, index, ret. rewrite HN, HFct, Hres, Hr. by eexists _, _.
  - rewrite FNT_body_loop.
    apply (enumerate_loop_ok (λ ct sc,
             N <- ext (GetNdiag ct params) (get_ndiag sc params) ;;
             F <- index (Fmats self) ct ;;
             T <- ext (GetBasis ct params) (get_basis sc params) ;;
             ext (NdiagSolve ct T F) (Nd_solve L N T F))).
    intros ct sc Hsc s. destruct (HF ct sc Hsc) as [F HFct].
    destruct (Hlib ct sc F Hsc HFct) as (N & T & r & HN & HT & Hr).
    simpl. unfold bind, ext, index, ret. rewrite HN, HFct, HT, Hr. by eexists _, _.
Qed.

End MoreProperties.

(** ** Properties of the construction *)

Lemma elem_of_concat {T} (ls : list (list T)) (x : T) :
  x ∈ concat ls ↔ ∃ l, l ∈ ls ∧ x ∈ l.
Proof.
  induction ls as [|l ls IH]; simpl.
  - split; [by intros ?%elem_of_nil | by intros (l & ?%elem_of_nil & _)].
  - rewrite elem_of_app, IH. split.
    + intros [Hx | (l' & Hl' & Hx)].
      * exists l. split; [by left | done].
      * exists l'. split; [by right | done].
    + intros (l' & Hl' & Hx). apply elem_of_cons in Hl' as [-> | Hl'].
      * by left.
      * right. by exists l'.
Qed.

Lemma np_unique_elem (a : list nat) (n : nat) : n ∈ np_unique a ↔ n ∈ a.
Proof. unfold np_unique. by rewrite merge_sort_Permutation, elem_of_remove_dups. Qed.

Lemma StronglySorted_le_lt (l : list nat) :
  StronglySorted (≤)%nat l → NoDup l → StronglySorted (<)%nat l.
Proof.
  induction 1 as [|x l _ IH Hx]; intros Hnd; [constructor|].
  apply NoDup_cons in Hnd as [Hxl Hnd]. constructor; [by apply IH|].
  rewrite Forall_forall in Hx |- *. intros y Hy.
  assert (x ≠ y) by (by intros ->). specialize (Hx y Hy). lia.
Qed.

Lemma np_unique_sorted (a : list nat) : StronglySorted (<)%nat (np_unique a).
Proof.
  unfold np_unique. apply StronglySorted_le_lt.
  - apply StronglySorted_merge_sort; apply _.
  - rewrite merge_sort_Permutation. apply NoDup_remove_dups.
Qed.

Lemma np_unique_ext (a b : list nat) :
  (∀ n, n ∈ a ↔ n ∈ b) → np_unique a = np_unique b.
Proof.
  intros Hab. unfold np_unique.
  apply (StronglySorted_unique (≤)%nat);
    [apply StronglySorted_merge_sort; apply _..|].
  rewrite !merge_sort_Permutation.
  apply NoDup_Permutation; [apply NoDup_remove_dups..|].
  intros n. by rewrite !elem_of_remove_dups.
Qed.

Section ConstructionProperties.

Context {V A Par Nd : Type}.
Variable C : CtorLib V A Par Nd.

Lemma gw_index_arrays_elem (sc : SignalCollectionView V A Nd) (n : nat) :
  n ∈ concat (gw_index_arrays sc)
  ↔ ∃ sig idx, (sig, idx) ∈ _idx sc ∧ is_gw sig = true ∧ n ∈ idx.
Proof.
  rewrite elem_of_concat. unfold gw_index_arrays. split.
  - intros (l & Hl & Hn). apply list_elem_of_fmap in Hl as ([sig idx] & -> & Hsi).
    apply list_elem_of_filter in Hsi as [Hgw Hsi]. by exists sig, idx.
  - intros (sig & idx & Hsi & Hgw & Hn). exists idx. split; [|done].
    apply list_elem_of_fmap. exists (sig, idx). split; [done|].
    by apply list_elem_of_filter.
Qed.

Lemma Fmat_of_ok_inv (params : gmap string V) (sc : SignalCollectionView V A Nd) (F : A) :
  Fmat_of C params sc = Ok F →
  gw_index_arrays sc ≠ []
  ∧ ∃ basis, get_basis (view_sc sc) params = Ok basis
             ∧ take_columns C basis (np_unique (concat (gw_index_arrays sc))) = Ok F.
Proof.
  unfold Fmat_of, np_concatenate. destruct (gw_index_arrays sc) as [|l ls]; [done|].
  destruct (get_basis (view_sc sc) params) as [basis|]; [|done].
  intros HF. split; [done|]. by exists basis.
Qed.

Lemma get_Fmats_from_ok_inv (params : gmap string V)
    (scs : list (SignalCollectionView V A Nd)) (acc Fmats : list A) :
  get_Fmats_from C params scs acc = Ok Fmats →
  ∃ Fs, Fmats = acc ++ Fs ∧ Forall2 (λ sc F, Fmat_of C params sc = Ok F) scs Fs.
Proof.
  revert acc. induction scs as [|sc scs IH]; intros acc; simpl.
  - intros [= <-]. exists []. by rewrite app_nil_r.
  - destruct (Fmat_of C params sc) as [F|] eqn:HF; [|done].
    intros (Fs & -> & Hall)%IH. exists (F :: Fs).
    rewrite <- app_assoc. split; [done|]. by constructor.
Qed.

(** X13. When [get_Fmats] returns, it returns one matrix for every
    signal collection, in their order.  The matrix of a collection is its
    basis restricted to columns [ix], where [ix] is strictly increasing and
    holds exactly the indices that [sc._idx] gives for the signals named
    'red noise' with id 'gw' or 'gw_crn'; every collection has such a
    signal. *)
Theorem get_Fmats_columns (p : PTAView V A Par Nd) (params : gmap string V)
    (Fmats : list A) :
  get_Fmats C p params = Ok Fmats →
  length Fmats = length (collections p)
  ∧ ∀ ct sc, collections p !! ct = Some sc →
      (∃ sig idx, (sig, idx) ∈ _idx sc ∧ is_gw sig = true)
      ∧ ∃ basis ix F,
          get_basis (view_sc sc) params = Ok basis
          ∧ take_columns C basis ix = Ok F
          ∧ Fmats !! ct = Some F
          ∧ StronglySorted (<)%nat ix
          ∧ ∀ n, n ∈ ix ↔ ∃ sig idx, (sig, idx) ∈ _idx sc ∧ is_gw sig = true ∧ n ∈ idx.
Proof.
  intros Hrun. unfold get_Fmats in Hrun.
  apply get_Fmats_from_ok_inv in Hrun as (Fs & -> & Hall). simpl.
  split; [symmetry; by eapply Forall2_length|].
  intros ct sc Hsc.
  destruct (Forall2_lookup_l _ _ _ _ _ Hall Hsc) as (F & HF & Hrun).
  apply Fmat_of_ok_inv in Hrun as (Hne & basis & Hbasis & Htake). split.
  - unfold gw_index_arrays in Hne.
    destruct (filter _ (_idx sc)) as [|[sig idx] l] eqn:Hfl; [done|].
    assert (Hin : (sig, idx) ∈ filter (λ si, is_gw si.1 = true) (_idx sc))
      by (rewrite Hfl; by left).
    apply list_elem_of_filter in Hin as [Hgw Hin]. by exists sig, idx.
  - exists basis, (np_unique (concat (gw_index_arrays sc))), F.
    do 3 (split; [done|]). split; [apply np_unique_sorted|].
    intros n. by rewrite np_unique_elem, gw_index_arrays_elem.
Qed.

Lemma get_Fmats_from_raises (params : gmap string V)
    (pre post : list (SignalCollectionView V A Nd)) (sc : SignalCollectionView V A Nd)
    (acc : list A) (e : exn) :
  Forall (λ sc', ∃ F, Fmat_of C params sc' = Ok F) pre →
  Fmat_of C params sc = Raise e →
  get_Fmats_from C params (pre ++ sc :: post) acc = Raise e.
Proof.
  intros Hpre Hsc. revert acc.
  induction Hpre as [|sc' pre [F HF] _ IH]; intros acc; simpl.
  - by rewrite Hsc.
  - rewrite HF. apply IH.
Qed.

(** X14. [get_Fmats] raises [ValueError] (from [np.concatenate] of an
    empty list) at the first signal collection that has no signal named
    'red noise' with id 'gw' or 'gw_crn', whatever the collections after it
    are. *)
Theorem get_Fmats_without_gw_signal (p : PTAView V A Par Nd) (params : gmap string V)
    (pre post : list (SignalCollectionView V A Nd)) (sc : SignalCollectionView V A Nd) :
  collections p = pre ++ sc :: post →
  Forall (λ sc', ∃ F, Fmat_of C params sc' = Ok F) pre →
  Forall (λ si, is_gw si.1 = false) (_idx sc) →
  get_Fmats C p params = Raise ValueError.
Proof.
  intros Hp Hpre Hsc. unfold get_Fmats. rewrite Hp.
  apply get_Fmats_from_raises; [done|].
  unfold Fmat_of, gw_index_arrays.
  assert (Hnil : filter (λ si, is_gw si.1 = true) (_idx sc) = []).
  { induction Hsc as [|si l Hsi _ IH]; [done|].
    rewrite filter_cons. destruct (decide (is_gw si.1 = true)) as [Ht|_]; [|done].
    by rewrite Hsi in Ht. }
  by rewrite Hnil.
Qed.

(** X15. The matrix of a signal collection does not depend on the order
    in which [sc._idx.items()] yields the signals. *)
Theorem Fmat_of_order_of_items (params : gmap string V)
    (sc sc' : SignalCollectionView V A Nd) :
  view_sc sc = view_sc sc' → _idx sc ≡ₚ _idx sc' →
  Fmat_of C params sc = Fmat_of C params sc'.
Proof.
  intros Hview Hperm.
  assert (Hind : gw_index_arrays sc ≡ₚ gw_index_arrays sc').
  { unfold gw_index_arrays. by rewrite Hperm. }
  unfold Fmat_of, np_concatenate. rewrite <- Hview.
  destruct (gw_index_arrays sc) as [|l ls] eqn:Hl.
  { apply Permutation_nil in Hind. by rewrite Hind. }
  destruct (gw_index_arrays sc') as [|l' ls'] eqn:Hl'.
  { by apply Permutation_nil_r in Hind. }
  destruct (get_basis (view_sc sc) params) as [basis|]; [|done].
  f_equal. apply np_unique_ext. intros n.
  rewrite !elem_of_concat. by setoid_rewrite Hind.
Qed.

Lemma first_gw_labels_app (pre post : list (Signal A)) :
  Forall (λ s, is_gw s = false) pre →
  first_gw_labels (pre ++ post) = first_gw_labels post.
Proof.
  induction 1 as [|s pre Hs _ IH]; [done|]. simpl. by rewrite Hs.
Qed.

Lemma first_gw_labels_split (sigs : list (Signal A)) :
  Forall (λ s, is_gw s = false) sigs
  ∨ ∃ pre sig post, sigs = pre ++ sig :: post
                    ∧ Forall (λ s, is_gw s = false) pre ∧ is_gw sig = true.
Proof.
  induction sigs as [|s sigs IH]; [by left|].
  destruct (is_gw s) eqn:Hs.
  - right. by exists [], s, sigs.
  - destruct IH as [Hall | (pre & sig & post & -> & Hpre & Hsig)].
    + left. by constructor.
    + right. exists (s :: pre), sig, post. split; [done|]. split; [by constructor|done].
Qed.

(** X16. [_get_freqs] looks at the first signal collection only, and
    there at the first signal named 'red noise' with id 'gw' or 'gw_crn': it
    returns [sig._labels['']] of that signal after [sig._construct_basis()].
    It fails with [IndexError] when the model has no signal collection, and
    with [UnboundLocalError] exactly when the first collection has no such
    signal. *)
Theorem _get_freqs_first_gw_signal (p : PTAView V A Par Nd) :
  (collections p = [] → _get_freqs p = Fails (Std IndexError))
  ∧ (∀ freqs, _get_freqs p = Returns freqs ↔
       ∃ sc rest pre sig post labels,
         collections p = sc :: rest ∧ _signals sc = pre ++ sig :: post
         ∧ Forall (λ s, is_gw s = false) pre ∧ is_gw sig = true
         ∧ _construct_basis sig = Ok labels ∧ labels !! "" = Some freqs)
  ∧ (_get_freqs p = Fails UnboundLocalError ↔
       ∃ sc rest, collections p = sc :: rest
                  ∧ Forall (λ s, is_gw s = false) (_signals sc)).
Proof.
  unfold _get_freqs. split; [by intros ->|].
  destruct (collections p) as [|sc rest].
  { split; [intros freqs|]; (split; [done|]).
    - by intros (? & ? & ? & ? & ? & ? & ? & _).
    - by intros (? & ? & ? & _). }
  destruct (first_gw_labels_split (_signals sc))
    as [Hall | (pre & sig & post & Hsigs & Hpre & Hsig)].
  - assert (Hrun : first_gw_labels (_signals sc) = Fails UnboundLocalError).
    { rewrite <- (app_nil_r (_signals sc)). by rewrite first_gw_labels_app. }
    rewrite Hrun. split; [intros freqs|]; split; try done.
    + intros (sc' & rest' & pre & sig & post & labels & [= <- <-] & Hsigs & _ & Hsig & _).
      rewrite Hsigs in Hall. apply Forall_app in Hall as [_ Hall].
      apply Forall_cons in Hall as [Hno _]. by rewrite Hno in Hsig.
    + intros _. by exists sc, rest.
  - assert (Hrun : first_gw_labels (_signals sc)
                   = match _construct_basis sig with
                     | Raise e => Fails (Std e)
                     | Ok labels =>
                         match labels !! "" with
                         | Some freqs => Returns freqs
                         | None => Fails (Std KeyError)
                         end
                     end).
    { rewrite Hsigs, first_gw_labels_app by done. simpl. by rewrite Hsig. }
    rewrite Hrun. split; [intros freqs|]; split.
    + destruct (_construct_basis sig) as [labels|] eqn:Hcb; [|done].
      destruct (labels !! "") as [f|] eqn:Hlab; [|done]. intros [= <-].
      by exists sc, rest, pre, sig, post, labels.
    + intros (sc' & rest' & pre' & sig' & post' & labels & [= <- <-] & Hsigs'
              & Hpre' & Hsig' & Hcb & Hlab).
      assert (Hrun' : first_gw_labels (_signals sc) = Returns freqs).
      { rewrite Hsigs', first_gw_labels_app by done. simpl.
        by rewrite Hsig', Hcb, Hlab. }
      by rewrite <- Hrun, Hrun'.
    + destruct (_construct_basis sig) as [labels|]; [|done].
      by destruct (labels !! "").
    + intros (sc' & rest' & [= <- <-] & Hall).
      rewrite Hsigs in Hall. apply Forall_app in Hall as [_ Hall].
      apply Forall_cons in Hall as [Hno _]. by rewrite Hno in Hsig.
Qed.

(** X17. An object that [__init__] returns holds: the given model, or
    the one [models.model_2a] built with [psd='powerlaw'] and
    [select='backend']; the given [gamma_common]; the positions of the
    pulsars in their order; the frequencies of [_get_freqs] and the matrices
    of [get_Fmats] with the empty dictionary; and one of the three overlap
    reduction functions, chosen by name.  The model has at least one signal
    collection, and [Fmats] has one matrix for each. *)
Theorem __init___returns (psrs : list (Pulsar A)) (bayesephem : bool)
    (gamma : option V) (orf_name : string) (wideband : bool) (select : option string)
    (noisedict : option (gmap string V)) (given : option (PTAView V A Par Nd))
    (os : OptimalStatistic V A Par Nd) :
  __init__ C psrs bayesephem gamma orf_name wideband select noisedict given = Returns os →
  ∃ p,
    match given with
    | Some q => p = q
    | None => model_2a C psrs "powerlaw" bayesephem gamma wideband "backend" noisedict
              = Ok p
    end
    ∧ pta os = view_pta p
    ∧ gamma_common os = gamma
    ∧ psrlocs os = pos <$> psrs
    ∧ _get_freqs p = Returns (freqs os)
    ∧ get_Fmats C p ∅ = Ok (Fmats os)
    ∧ ((orf_name = "hd" ∧ orf os = hd_orf C)
       ∨ (orf_name = "dipole" ∧ orf os = dipole_orf C)
       ∨ (orf_name = "monopole" ∧ orf os = monopole_orf C))
    ∧ (view_consistent p →
       (1 ≤ length (_signalcollections (pta os)))%nat
       ∧ length (Fmats os) = length (_signalcollections (pta os))).
Proof.
  unfold __init__. intros Hrun.
  destruct (match given with Some q => Ok q | None => _ end) as [p|] eqn:Hp; [|done].
  destruct (_get_freqs p) as [f|] eqn:Hf; [|done].
  destruct (get_Fmats C p ∅) as [Fm|] eqn:HFm; [|done].
  destruct (select_orf C orf_name) as [o|] eqn:Ho; [|done].
  injection Hrun as <-. simpl. exists p.
  split; [destruct given as [q|]; [by injection Hp as -> | done]|].
  do 5 (split; [done|]). split.
  - unfold select_orf in Ho. repeat case_bool_decide; simplify_eq; tauto.
  - intros Hview. unfold view_consistent in Hview. rewrite <- Hview, length_fmap.
    split.
    + unfold _get_freqs in Hf. destruct (collections p); [done | simpl; lia].
    + unfold get_Fmats in HFm.
      apply get_Fmats_from_ok_inv in HFm as (Fs & -> & Hall). simpl.
      symmetry. by eapply Forall2_length.
Qed.

(** X18. With a name of the overlap reduction function other than
    'hd', 'dipole' and 'monopole', [__init__] never returns an object.  The
    [ValueError] for the unknown name comes last: with a given model or with
    the one [models.model_2a] builds, it is raised when the frequencies and
    the F-matrices have been obtained, and a failure of [model_2a], of
    [_get_freqs] or of [get_Fmats] is raised instead of it. *)
Theorem __init___unknown_orf (psrs : list (Pulsar A)) (bayesephem : bool)
    (gamma : option V) (orf_name : string) (wideband : bool) (select : option string)
    (noisedict : option (gmap string V)) (given : option (PTAView V A Par Nd)) :
  orf_name ≠ "hd" → orf_name ≠ "dipole" → orf_name ≠ "monopole" →
  let built := model_2a C psrs "powerlaw" bayesephem gamma wideband "backend" noisedict in
  let run := __init__ C psrs bayesephem gamma orf_name wideband select noisedict given in
  (∃ e, run = Fails e)
  ∧ (∀ e, given = None → built = Raise e → run = Fails (Std e))
  ∧ ∀ p, (given = Some p ∨ (given = None ∧ built = Ok p)) →
      (∀ e, _get_freqs p = Fails e → run = Fails e)
      ∧ (∀ freqs e, _get_freqs p = Returns freqs → get_Fmats C p ∅ = Raise e →
                    run = Fails (Std e))
      ∧ (∀ freqs Fmats, _get_freqs p = Returns freqs → get_Fmats C p ∅ = Ok Fmats →
                        run = Fails (Std ValueError)).
Proof.
  intros Hhd Hdi Hmo built run.
  assert (Ho : select_orf C orf_name = Raise ValueError).
  { unfold select_orf. by rewrite !bool_decide_eq_false_2. }
  split; [|split].
  - unfold run, __init__. rewrite Ho.
    destruct (match given with Some q => Ok q | None => _ end) as [p|]; [|by eexists].
    destruct (_get_freqs p); [|by eexists].
    destruct (get_Fmats C p ∅); by eexists.
  - intros e -> Hb. unfold run, __init__. fold built. by rewrite Hb.
  - intros p Hp.
    assert (Hmodel : (match given with
                      | Some q => Ok q
                      | None => built
                      end) = Ok p).
    { destruct Hp as [-> | [-> Hb]]; [done | exact Hb]. }
    unfold run, __init__. fold built. rewrite Hmodel. split; [|split].
    + by intros e ->.
    + intros freqs e -> HFm. by rewrite HFm.
    + intros freqs Fmats -> HFm. by rewrite HFm, Ho.
Qed.

End ConstructionProperties.

(** ** The format of the warnings *)






(** ** The further properties on the concrete models *)

Import MoreExamples.


Lemma compute_os_needs_an_entry_per_pulsar_witness :
  (2 ≤ length (_signalcollections (pta two_psrs)))%nat
  ∧ (length (_signalcollections (pta two_psrs)) ≤ length (psrlocs two_psrs))%nat.
Proof.
  assert (HP : (2 ≤ length (_signalcollections (pta two_psrs)))%nat) by (simpl; lia).
  assert (Hrun : compute_os toy_lib two_psrs (Some toy_params) st0
                 = (Ok ([pi_float], [32%float], [4%float], 128%float, 16%float),
                    (compute_os toy_lib two_psrs (Some toy_params) st0).2))
    by (vm_compute; reflexivity).
  split; [exact HP|].
  exact (proj1 (compute_os_needs_an_entry_per_pulsar toy_lib two_psrs _ _ _ _ HP Hrun)).
Defined.

Lemma compute_os_without_pairs_witness :
  (length (_signalcollections (pta one_psr)) ≤ 1)%nat
  ∧ compute_os toy_lib one_psr (Some toy_params) st0
    = (Ok ([], [], [], nan, infinity),
       (compute_os toy_lib one_psr (Some toy_params) st0).2)
  ∧ nan = (np_sum toy_lib [] / np_sum toy_lib [])%float
  ∧ infinity = finv_sqrt (np_sum toy_lib []).
Proof.
  assert (HP : (length (_signalcollections (pta one_psr)) ≤ 1)%nat) by (simpl; lia).
  assert (Hrun : compute_os toy_lib one_psr (Some toy_params) st0
                 = (Ok ([], [], [], nan, infinity),
                    (compute_os toy_lib one_psr (Some toy_params) st0).2))
    by (vm_compute; reflexivity).
  split; [exact HP|]. split; [exact Hrun|].
  destruct (compute_os_without_pairs toy_lib one_psr _ _ _ _ _ _ _ _ HP Hrun)
    as (_ & _ & _ & HOS & Hsig).
  by split.
Defined.

Lemma compute_os_prints_nothing_with_fixed_gamma_witness :
  gamma_common two_psrs = Some 4
  ∧ stdout (compute_os toy_lib two_psrs (Some toy_params) st0).2 = stdout st0.
Proof.
  split; [reflexivity|].
  apply (compute_os_prints_nothing_with_fixed_gamma toy_lib two_psrs 4). reflexivity.
Defined.

Lemma compute_os_prints_gamma_once_per_pair_witness :
  gamma_common free_gamma_psrs = None
  ∧ gamma_params !! "gw_gamma" = Some 4
  ∧ (∃ r, (compute_os toy_lib_fmt free_gamma_psrs (Some gamma_params) st0).1 = Ok r)
  ∧ stdout (compute_os toy_lib_fmt free_gamma_psrs (Some gamma_params) st0).2
    = ["4"; "4"; "4"].
Proof.
  assert (Hd : gamma_params !! "gw_gamma" = Some 4) by (vm_compute; reflexivity).
  split; [reflexivity|]. split; [exact Hd|].
  destruct (compute_os toy_lib_fmt free_gamma_psrs (Some gamma_params) st0)
    as [[r|e] s] eqn:Hrun; [|vm_compute in Hrun; discriminate].
  split; [by exists r|].
  exact (compute_os_prints_gamma_once_per_pair toy_lib_fmt free_gamma_psrs
           gamma_params 4 st0 s r eq_refl Hd Hrun).
Defined.

Lemma product_bodies_one_entry_per_collection_witness :
  FNF_body toy_lib two_psrs toy_params st0
  = (Ok [0.5%float; 0.5%float], (FNF_body toy_lib two_psrs toy_params st0).2)
  ∧ length [0.5%float; 0.5%float] = length (_signalcollections (pta two_psrs))
  ∧ (length (_signalcollections (pta two_psrs)) ≤ length (Fmats two_psrs))%nat.
Proof.
  assert (Hrun : FNF_body toy_lib two_psrs toy_params st0
                 = (Ok [0.5%float; 0.5%float],
                    (FNF_body toy_lib two_psrs toy_params st0).2))
    by (vm_compute; reflexivity).
  split; [exact Hrun|].
  destruct (proj1 (product_bodies_one_entry_per_collection toy_lib two_psrs
                     toy_params st0 _) _ Hrun) as (Hlen & HF & _).
  by split.
Defined.

Lemma product_bodies_return_witness :
  (length (_signalcollections (pta two_psrs)) ≤ length (Fmats two_psrs))%nat
  ∧ ∃ FNFs st', FNF_body toy_lib two_psrs toy_params st0 = (Ok FNFs, st').
Proof.
  assert (Hlen : (length (_signalcollections (pta two_psrs))
                  ≤ length (Fmats two_psrs))%nat) by (simpl; lia).
  split; [exact Hlen|].
  apply (proj1 (product_bodies_return toy_lib two_psrs toy_params st0 Hlen)).
  intros [|[|ct]] sc F Hsc HF; simpl in Hsc; [| |discriminate];
    injection Hsc as <-; by eexists _, _.
Defined.

Lemma marginalized_rejects_bad_sizes_witness :
  (0 < 3 ∧ rows empty_chain = [])
  ∧ compute_noise_marginalized_os toy_lib two_psrs empty_chain None 3 st0
    = (Raise ValueError, (check_chain two_psrs empty_chain st0).2).
Proof.
  assert (H : 0 < 3 ∧ rows empty_chain = []) by (split; [lia | reflexivity]).
  split; [exact H|].
  apply (marginalized_rejects_bad_sizes toy_lib two_psrs empty_chain None 3 st0).
  by right.
Defined.

Lemma maximized_needs_four_columns_witness :
  (ncols narrow_chain < 4)%nat
  ∧ compute_noise_maximized_os toy_lib two_psrs narrow_chain None st0
    = (Raise IndexError, (check_chain two_psrs narrow_chain st0).2).
Proof.
  assert (H : (ncols narrow_chain < 4)%nat) by (simpl; lia).
  split; [exact H|].
  exact (maximized_needs_four_columns toy_lib two_psrs narrow_chain None st0 H).
Defined.

Lemma chain_wf_narrow_chain : chain_wf narrow_chain.
Proof. unfold chain_wf. simpl. by repeat constructor. Qed.

Lemma chain_wf_toy_chain : chain_wf toy_chain.
Proof. unfold chain_wf. simpl. by repeat constructor. Qed.

Lemma marginalized_narrow_chain_empty_dictionaries_witness :
  chain_wf narrow_chain ∧ (ncols narrow_chain ≤ 4)%nat
  ∧ compute_noise_marginalized_os toy_lib two_psrs narrow_chain (Some ["efac"]) 2 st0
    = (Ok ([128%float; 128%float], [8%float; 8%float]),
       (compute_noise_marginalized_os toy_lib two_psrs narrow_chain (Some ["efac"]) 2 st0).2)
  ∧ ∃ ds : list (draw_result (V := Z)),
      length ds = 2%nat ∧ ∀ d, d ∈ ds → dr_setpars d = ∅.
Proof.
  assert (Hn : (ncols narrow_chain ≤ 4)%nat) by (simpl; lia).
  assert (Hrun : compute_noise_marginalized_os toy_lib two_psrs narrow_chain
                   (Some ["efac"]) 2 st0
                 = (Ok ([128%float; 128%float], [8%float; 8%float]),
                    (compute_noise_marginalized_os toy_lib two_psrs narrow_chain
                       (Some ["efac"]) 2 st0).2))
    by (vm_compute; reflexivity).
  split; [exact chain_wf_narrow_chain|]. split; [exact Hn|]. split; [exact Hrun|].
  destruct (marginalized_narrow_chain_empty_dictionaries toy_lib two_psrs _ _ _ _ _ _ _
              chain_wf_narrow_chain Hn Hrun) as (ds & _ & Hlen & _ & Hall).
  exists ds. split; [exact Hlen|]. intros d Hd. exact (proj2 (Hall d Hd)).
Defined.

Lemma marginalized_dictionary_accumulates_witness :
  compute_noise_marginalized_os toy_lib two_psrs toy_chain None 4 st0
  = (Ok ([128%float; 2048%float; 512%float; 128%float],
         [8%float; 128%float; 32%float; 8%float]),
     (compute_noise_marginalized_os toy_lib two_psrs toy_chain None 4 st0).2)
  ∧ ∃ ds : list (draw_result (V := Z)),
      length ds = 4%nat
      ∧ ∀ d d' name, ds !! 0%nat = Some d → ds !! 3%nat = Some d' →
          is_Some (dr_setpars d !! name) → is_Some (dr_setpars d' !! name).
Proof.
  assert (Hrun : compute_noise_marginalized_os toy_lib two_psrs toy_chain None 4 st0
                 = (Ok ([128%float; 2048%float; 512%float; 128%float],
                        [8%float; 128%float; 32%float; 8%float]),
                    (compute_noise_marginalized_os toy_lib two_psrs toy_chain None 4 st0).2))
    by (vm_compute; reflexivity).
  split; [exact Hrun|].
  destruct (marginalized_dictionary_accumulates toy_lib two_psrs _ _ _ _ _ _ Hrun)
    as (ds & _ & Hlen & _ & _ & Hkeys).
  exists ds. split; [exact Hlen|]. intros d d' name Hd Hd'.
  apply (Hkeys 0%nat 3%nat d d' name); [lia | exact Hd | exact Hd'].
Defined.

Lemma maximized_uses_argmax_row_witness :
  chain_wf toy_chain
  ∧ compute_noise_maximized_os toy_lib two_psrs toy_chain None st0
    = (Ok ([pi_float], [512%float], [4%float], 2048%float, 128%float),
       (compute_noise_maximized_os toy_lib two_psrs toy_chain None st0).2)
  ∧ (4 ≤ ncols toy_chain)%nat
  ∧ ∃ col idx row,
      Forall2 (λ r c, r !! (ncols toy_chain - 4)%nat = Some c) (rows toy_chain) col
      ∧ np_argmax toy_lib col = Ok idx
      ∧ rows toy_chain !! idx = Some row.
Proof.
  assert (Hrun : compute_noise_maximized_os toy_lib two_psrs toy_chain None st0
                 = (Ok ([pi_float], [512%float], [4%float], 2048%float, 128%float),
                    (compute_noise_maximized_os toy_lib two_psrs toy_chain None st0).2))
    by (vm_compute; reflexivity).
  split; [exact chain_wf_toy_chain|]. split; [exact Hrun|].
  destruct (maximized_uses_argmax_row toy_lib two_psrs _ _ _ _ _ _ _ _ _
              chain_wf_toy_chain Hrun)
    as (Hn & col & idx & row & sp & s1 & Sig & Hcol & Hidx & Hrow & _).
  split; [exact Hn|]. by exists col, idx, row.
Defined.

Lemma get_Fmats_columns_witness :
  get_Fmats toy_ctor (toy_pta_view [toy_view 8%float; toy_view 4%float]) ∅
  = Ok [6%float; 6%float]
  ∧ length [6%float; 6%float]
    = length (collections (toy_pta_view [toy_view 8%float; toy_view 4%float])).
Proof.
  assert (Hrun : get_Fmats toy_ctor (toy_pta_view [toy_view 8%float; toy_view 4%float]) ∅
                 = Ok [6%float; 6%float]) by (vm_compute; reflexivity).
  split; [exact Hrun|].
  exact (proj1 (get_Fmats_columns toy_ctor _ _ _ Hrun)).
Defined.

Lemma get_Fmats_without_gw_signal_witness :
  get_Fmats toy_ctor
    (toy_pta_view [toy_view 8%float; toy_view_no_gw 4%float; toy_view 2%float]) ∅
  = Raise ValueError.
Proof.
  apply (get_Fmats_without_gw_signal toy_ctor _ ∅ [toy_view 8%float] [toy_view 2%float]
           (toy_view_no_gw 4%float)).
  - reflexivity.
  - constructor; [|constructor]. exists 6%float. vm_compute. reflexivity.
  - constructor; [|constructor]. vm_compute. reflexivity.
Defined.

Lemma Fmat_of_order_of_items_witness :
  Fmat_of toy_ctor ∅ (toy_view 8%float) = Fmat_of toy_ctor ∅ (toy_view_swapped 8%float).
Proof.
  apply (Fmat_of_order_of_items toy_ctor ∅ (toy_view 8%float) (toy_view_swapped 8%float)).
  - reflexivity.
  - apply perm_swap.
Defined.

Lemma __init___returns_witness :
  ∃ os, __init__ toy_ctor toy_psrs true (Some 4) "hd" false None None None = Returns os
        ∧ psrlocs os = [1%float; (-1)%float]
        ∧ length (Fmats os) = length (_signalcollections (pta os)).
Proof.
  destruct (__init__ toy_ctor toy_psrs true (Some 4) "hd" false None None None)
    as [os|e] eqn:Hrun; [|vm_compute in Hrun; discriminate].
  exists os. split; [reflexivity|].
  destruct (__init___returns toy_ctor _ _ _ _ _ _ _ _ _ Hrun)
    as (p & Hp & _ & _ & Hlocs & _ & _ & _ & Hview).
  split; [exact Hlocs|]. apply Hview.
  simpl in Hp. injection Hp as <-. reflexivity.
Defined.

Lemma __init___unknown_orf_witness :
  __init__ toy_ctor toy_psrs true (Some 4) "HD" false None None None
  = Fails (Std ValueError).
Proof.
  destruct (__init___unknown_orf toy_ctor toy_psrs true (Some 4) "HD" false None None None
              ltac:(discriminate) ltac:(discriminate) ltac:(discriminate))
    as (_ & _ & Hlast).
  destruct (Hlast (toy_pta_view [toy_view 1%float; toy_view (-1)%float]))
    as (_ & _ & Hlast').
  - right. split; reflexivity.
  - apply (Hlast' 1%float [6%float; 6%float]); vm_compute; reflexivity.
Defined.
